(** * The [consul keyring] command: validation, dispatch and report formatting

    A shallow embedding of [command/keyring/keyring.go].  Go strings are byte
    strings ([string]); Go [int]s are integers ([Z], no arithmetic is done on
    them here); Go maps with string keys are finite maps ([gmap string V]) that
    are traversed in an order chosen by the runtime at every [range] loop. *)

From Stdlib Require Import ZArith String Ascii List Lia DecimalString.
From Stdlib Require DecimalPos DecimalZ.
From stdpp Require Import gmap strings list fin_maps.

Local Open Scope Z_scope.

(** ** Values shared with the Go runtime and its standard library *)

(** A Go [(value, error)] pair: either the value, or the text of the error. *)
Inductive result (A : Type) : Type :=
| Ok (a : A)
| Err (e : string).
Arguments Ok {A} a.
Arguments Err {A} e.

Definition is_ok {A} (r : result A) : bool :=
  match r with Ok _ => true | Err _ => false end.

(** The line feed, written ["\n"] in the source. *)
Definition LF : ascii := Ascii.ascii_of_nat 10.
Definition nl : string := String LF "".

(** [strings.Join(elems, sep)]. *)
Fixpoint strings_Join (elems : list string) (sep : string) : string :=
  match elems with
  | [] => ""
  | [e] => e
  | e :: rest => e +:+ sep +:+ strings_Join rest sep
  end.

(** [strings.Replace(s, old, new, -1)] for a non-empty [old]: the occurrences
    of [old] are found scanning from the left, the search resuming after each
    occurrence (so they do not overlap), and every one is replaced by [new].
    [skip] counts the bytes of the current occurrence that are still to be
    passed over. *)
Fixpoint replace_from (skip : nat) (old new s : string) : string :=
  match s with
  | EmptyString => ""
  | String c rest =>
      match skip with
      | S k => replace_from k old new rest
      | O =>
          if String.prefix old s
          then new +:+ replace_from (String.length old - 1) old new rest
          else String c (replace_from 0 old new rest)
      end
  end.

Definition strings_Replace (s old new : string) : string :=
  replace_from 0 old new s.

(** The verb [%d] of [fmt.Sprintf]: an integer in decimal. *)
Definition fmt_d (n : Z) : string := NilZero.string_of_int (Z.to_int n).

(** A [range] loop over a map visits every entry once, in an order the
    language leaves open and the runtime varies from one loop to the next.
    A [MapRange] is the order picked for one loop. *)
Definition MapRange : Type := ∀ V : Type, gmap string V → list (string * V).

Definition range_ok (ρ : MapRange) : Prop :=
  ∀ (V : Type) (m : gmap string V), ρ V m ≡ₚ map_to_list m.

(** ** [consulapi]: the responses and options of the operator endpoint *)

Record KeyringResponse : Type := {
  WAN : bool;
  Datacenter : string;
  Segment : string;
  Messages : gmap string string;
  Keys : gmap string Z;
  PrimaryKeys : gmap string Z;
  NumNodes : Z
}.

Record QueryOptions : Type := { q_RelayFactor : Z; q_LocalOnly : bool }.
Record WriteOptions : Type := { w_RelayFactor : Z }.

(** ** The formatter *)

(** [poolName]. *)
Definition poolName (dc : string) (wan : bool) (segment : string) : string :=
  let pool := dc +:+ " (LAN)" in
  let pool := if wan then "WAN" else pool in
  let segment := if String.eqb segment "" then segment
                 else " [" +:+ segment +:+ "]" in
  pool +:+ segment.

Definition messageLine (e : string * string) : string :=
  "  ===> " +:+ e.1 +:+ ": " +:+ e.2.

Definition keyLine (total : Z) (e : string * Z) : string :=
  "  " +:+ e.1 +:+ " [" +:+ fmt_d e.2 +:+ "/" +:+ fmt_d total +:+ "]".

(** [formatMessages]: one line per entry, in the order of the loop. *)
Definition formatMessages (ρ : MapRange) (messages : gmap string string) : string :=
  strings_Join (messageLine <$> ρ _ messages) nl.

(** [formatKeys]. *)
Definition formatKeys (ρ : MapRange) (keys : gmap string Z) (total : Z) : string :=
  strings_Join (keyLine total <$> ρ _ keys) nl.

(** The text before the final replacement in [formatResponse]. *)
Definition assembled (ρ : MapRange) (response : KeyringResponse)
    (keys : gmap string Z) : string :=
  strings_Join
    [ "";
      poolName (Datacenter response) (WAN response) (Segment response) +:+ ":";
      formatMessages ρ (Messages response);
      formatKeys ρ keys (NumNodes response) ]
    nl.

(** [formatResponse]. *)
Definition formatResponse (ρ : MapRange) (response : KeyringResponse)
    (keys : gmap string Z) : string :=
  strings_Replace (assembled ρ response keys) (nl +:+ nl) nl.

(** ** The command and its collaborators *)

(** The fields of [cmd] that [Run] reads once [c.flags.Parse] has filled them,
    and the usage text [c.help] built by [init]. *)
Record cmd : Type := {
  installKey : string;
  useKey : string;
  removeKey : string;
  listKeys : bool;
  listPrimaryKeys : bool;
  relay : Z;
  local : bool;
  help : string
}.

(** The two validators that [Run] calls in package [agent]. *)
Record Agent : Type := {
  ParseRelayFactor : Z → result Z;
  ValidateLocalOnly : bool → bool → option string
}.

(** Modelled from the spec: [agent.ParseRelayFactor] and
    [agent.ValidateLocalOnly] are not part of the sources at hand.  The relay
    policy returns the factor, or fails with [InvalidRelayFactor] when the
    value is negative or exceeds the maximum (5).  The scope validator is given
    the local-only flag and whether the request is a list request, and fails
    with [InvalidScope] when local-only is set on a request that is not one. *)
Definition agent : Agent := {|
  ParseRelayFactor n :=
    if (n <? 0) || (5 <? n) then Err "InvalidRelayFactor" else Ok n;
  ValidateLocalOnly local list :=
    if local && negb list then Some "InvalidScope" else None
|}.

(** [client.Operator()]: the keyring verbs of the cluster client.  Each is
    called at most once by an invocation, so its answer is a function of its
    arguments. *)
Record Operator : Type := {
  KeyringList : QueryOptions → result (list KeyringResponse);
  KeyringInstall : string → WriteOptions → option string;
  KeyringUse : string → WriteOptions → option string;
  KeyringRemove : string → WriteOptions → option string
}.

(** What lies outside the command: the outcome of [c.http.APIClient()], and the
    order the runtime picks for the map loops of the [i]-th formatted
    response. *)
Record World : Type := {
  APIClient : result Operator;
  map_order : nat → MapRange
}.

(** What an invocation does that can be observed from outside. *)
Inductive Event : Type :=
| UI_Error (msg : string)
| UI_Info (msg : string)
| UI_Output (msg : string)
| New_APIClient
| Call_KeyringList (q : QueryOptions)
| Call_KeyringInstall (key : string) (opts : WriteOptions)
| Call_KeyringUse (key : string) (opts : WriteOptions)
| Call_KeyringRemove (key : string) (opts : WriteOptions).

(** The [return] statements of [Run], in the order of the source. *)
Inductive Site : Type :=
| at_parse_error
| at_multiple_actions
| at_no_action
| at_relay_factor
| at_local_only
| at_client_error
| at_list_error
| at_list
| at_list_primary_error
| at_list_primary
| at_install_error
| at_install
| at_use_error
| at_use
| at_remove_error
| at_remove
| at_end.

(** A computation logs events and either goes on with a value or has
    executed a [return] with an exit code. *)
Definition M (A : Type) : Type := list Event * (A + Site * Z).

Global Instance M_ret : MRet M := λ A a, ([], inl a).

Global Instance M_bind : MBind M := λ A B k m,
  match m with
  | (log, inl a) => let '(log', r) := k a in (log ++ log', r)
  | (log, inr x) => (log, inr x)
  end.

Definition emit (e : Event) : M unit := ([e], inl tt).

Definition return_ {A} (site : Site) (code : Z) : M A := ([], inr (site, code)).

(** [for i, x := range xs { body }] over a slice. *)
Fixpoint for_range {A} (i : nat) (xs : list A) (body : nat → A → M unit) : M unit :=
  match xs with
  | [] => mret tt
  | x :: rest => body i x ;; for_range (S i) rest body
  end.

(** The loop of [Run] that accepts a single action only. *)
Fixpoint single_action (found : bool) (args : list string) : M bool :=
  match args with
  | [] => mret found
  | arg :: rest =>
      (if found && (0 <? String.length arg)%nat
       then emit (UI_Error "Only a single action is allowed") ;;
            return_ at_multiple_actions 1
       else mret tt) ;;
      single_action (found || (0 <? String.length arg)%nat) rest
  end.

Definition nonempty (s : string) : bool := negb (String.eqb s "").

Section Run.
Context (ag : Agent) (w : World).

(** [Run], from the point where [c.flags.Parse] has succeeded. *)
Definition run_parsed (c : cmd) : M Empty_set :=
  found ← single_action (listKeys c || listPrimaryKeys c)
            [installKey c; useKey c; removeKey c];
  (if negb found
   then emit (UI_Error (help c)) ;; return_ at_no_action 1
   else mret tt) ;;
  relayFactor ←
    match ParseRelayFactor ag (relay c) with
    | Err err =>
        emit (UI_Error ("Error parsing relay factor: " +:+ err)) ;;
        return_ at_relay_factor 1
    | Ok n => mret n
    end;
  match ValidateLocalOnly ag (local c) (listKeys c) with
  | Some err =>
      emit (UI_Error ("Error validating local-only: " +:+ err)) ;;
      return_ at_local_only 1
  | None => mret tt
  end ;;
  emit New_APIClient ;;
  client ←
    match APIClient w with
    | Err err =>
        emit (UI_Error ("Error connecting to Consul agent: " +:+ err)) ;;
        return_ at_client_error 1
    | Ok client => mret client
    end;
  (if listKeys c
   then
     emit (UI_Info "Gathering installed encryption keys...") ;;
     let q := {| q_RelayFactor := relayFactor; q_LocalOnly := local c |} in
     emit (Call_KeyringList q) ;;
     match KeyringList client q with
     | Err err => emit (UI_Error ("error: " +:+ err)) ;; return_ at_list_error 1
     | Ok responses =>
         for_range 0 responses (λ i response,
           emit (UI_Output
                   (formatResponse (map_order w i) response (Keys response)))) ;;
         return_ at_list 0
     end
   else mret tt) ;;
  (if listPrimaryKeys c
   then
     emit (UI_Info "Gathering installed primary encryption keys...") ;;
     let q := {| q_RelayFactor := relayFactor; q_LocalOnly := local c |} in
     emit (Call_KeyringList q) ;;
     match KeyringList client q with
     | Err err =>
         emit (UI_Error ("error: " +:+ err)) ;; return_ at_list_primary_error 1
     | Ok responses =>
         for_range 0 responses (λ i response,
           emit (UI_Output
                   (formatResponse (map_order w i) response
                      (PrimaryKeys response)))) ;;
         return_ at_list_primary 0
     end
   else mret tt) ;;
  let opts := {| w_RelayFactor := relayFactor |} in
  (if nonempty (installKey c)
   then
     emit (UI_Info "Installing new gossip encryption key...") ;;
     emit (Call_KeyringInstall (installKey c) opts) ;;
     match KeyringInstall client (installKey c) opts with
     | Some err => emit (UI_Error ("error: " +:+ err)) ;; return_ at_install_error 1
     | None => return_ at_install 0
     end
   else mret tt) ;;
  (if nonempty (useKey c)
   then
     emit (UI_Info "Changing primary gossip encryption key...") ;;
     emit (Call_KeyringUse (useKey c) opts) ;;
     match KeyringUse client (useKey c) opts with
     | Some err => emit (UI_Error ("error: " +:+ err)) ;; return_ at_use_error 1
     | None => return_ at_use 0
     end
   else mret tt) ;;
  (if nonempty (removeKey c)
   then
     emit (UI_Info "Removing gossip encryption key...") ;;
     emit (Call_KeyringRemove (removeKey c) opts) ;;
     match KeyringRemove client (removeKey c) opts with
     | Some err => emit (UI_Error ("error: " +:+ err)) ;; return_ at_remove_error 1
     | None => return_ at_remove 0
     end
   else mret tt) ;;
  (* Should never make it here *)
  return_ at_end 0.

(** [Run]: [parsed] is what [c.flags.Parse(args)] made of the arguments,
    [None] when it failed. *)
Definition Run (parsed : option cmd) : M Empty_set :=
  match parsed with
  | None => return_ at_parse_error 1
  | Some c => run_parsed c
  end.
End Run.

(** What an invocation leaves behind. *)
Definition events (m : M Empty_set) : list Event := m.1.

Definition returned (m : M Empty_set) : Site * Z :=
  match m.2 with
  | inl v => match v with end
  | inr x => x
  end.

Definition exit_code (m : M Empty_set) : Z := (returned m).2.
Definition site (m : M Empty_set) : Site := (returned m).1.

(** The events that touch the network: building the client and calling a verb. *)
Definition is_network (e : Event) : bool :=
  match e with
  | New_APIClient
  | Call_KeyringList _
  | Call_KeyringInstall _ _
  | Call_KeyringUse _ _
  | Call_KeyringRemove _ _ => true
  | _ => false
  end.

Definition network (m : M Empty_set) : list Event := List.filter is_network (events m).

(** The text written with [c.UI.Output], in order. *)
Definition outputs (m : M Empty_set) : list string :=
  omap (λ e, match e with UI_Output s => Some s | _ => None end) (events m).

(** The single-action check of [Run] on its own, and the number of command
    arguments that the flags populated. *)
Definition selection (c : cmd) : M bool :=
  single_action (listKeys c || listPrimaryKeys c)
    [installKey c; useKey c; removeKey c].

Definition populated (c : cmd) : nat :=
  Nat.b2n (listKeys c) + Nat.b2n (listPrimaryKeys c) +
  Nat.b2n (nonempty (installKey c)) + Nat.b2n (nonempty (useKey c)) +
  Nat.b2n (nonempty (removeKey c)).

Definition mutating (c : cmd) : bool :=
  nonempty (installKey c) || nonempty (useKey c) || nonempty (removeKey c).

(** The returns that end one of the five command branches. *)
Definition branch_site (s : Site) : bool :=
  match s with
  | at_list_error | at_list | at_list_primary_error | at_list_primary
  | at_install_error | at_install | at_use_error | at_use
  | at_remove_error | at_remove => true
  | _ => false
  end.

(** The returns that precede the construction of the client. *)
Definition validation_site (s : Site) : bool :=
  match s with
  | at_multiple_actions | at_no_action | at_relay_factor | at_local_only => true
  | _ => false
  end.

(** Every branch opens with one [c.UI.Info]; nothing else calls it. *)
Definition is_info (e : Event) : bool :=
  match e with UI_Info _ => true | _ => false end.

Definition branches_entered (m : M Empty_set) : nat :=
  length (List.filter is_info (events m)).

(** ** [Run] in direct style

    The five branches of [Run] written as one cascade, from the point where the
    client exists: the events logged and the [return] reached.  [run_parsed]
    is shown equal to the validations followed by this cascade, and the
    theorems below are read off that equation. *)
Definition dispatch (w : World) (client : Operator) (n : Z) (c : cmd)
    : list Event * (Site * Z) :=
  let q := {| q_RelayFactor := n; q_LocalOnly := local c |} in
  let opts := {| w_RelayFactor := n |} in
  if listKeys c then
    match KeyringList client q with
    | Err e =>
        ([UI_Info "Gathering installed encryption keys..."; Call_KeyringList q;
          UI_Error ("error: " +:+ e)], (at_list_error, 1))
    | Ok rs =>
        (UI_Info "Gathering installed encryption keys..." :: Call_KeyringList q ::
         imap (λ i r, UI_Output (formatResponse (map_order w i) r (Keys r))) rs,
         (at_list, 0))
    end
  else if listPrimaryKeys c then
    match KeyringList client q with
    | Err e =>
        ([UI_Info "Gathering installed primary encryption keys...";
          Call_KeyringList q; UI_Error ("error: " +:+ e)],
         (at_list_primary_error, 1))
    | Ok rs =>
        (UI_Info "Gathering installed primary encryption keys..." ::
         Call_KeyringList q ::
         imap (λ i r, UI_Output (formatResponse (map_order w i) r (PrimaryKeys r))) rs,
         (at_list_primary, 0))
    end
  else if nonempty (installKey c) then
    (UI_Info "Installing new gossip encryption key..." ::
     Call_KeyringInstall (installKey c) opts ::
     match KeyringInstall client (installKey c) opts with
     | Some e => [UI_Error ("error: " +:+ e)]
     | None => []
     end,
     match KeyringInstall client (installKey c) opts with
     | Some e => (at_install_error, 1)
     | None => (at_install, 0)
     end)
  else if nonempty (useKey c) then
    (UI_Info "Changing primary gossip encryption key..." ::
     Call_KeyringUse (useKey c) opts ::
     match KeyringUse client (useKey c) opts with
     | Some e => [UI_Error ("error: " +:+ e)]
     | None => []
     end,
     match KeyringUse client (useKey c) opts with
     | Some e => (at_use_error, 1)
     | None => (at_use, 0)
     end)
  else if nonempty (removeKey c) then
    (UI_Info "Removing gossip encryption key..." ::
     Call_KeyringRemove (removeKey c) opts ::
     match KeyringRemove client (removeKey c) opts with
     | Some e => [UI_Error ("error: " +:+ e)]
     | None => []
     end,
     match KeyringRemove client (removeKey c) opts with
     | Some e => (at_remove_error, 1)
     | None => (at_remove, 0)
     end)
  else ([], (at_end, 0)).

Definition validated (ag : Agent) (w : World) (c : cmd) : M Empty_set :=
  match ParseRelayFactor ag (relay c) with
  | Err e =>
      ([UI_Error ("Error parsing relay factor: " +:+ e)], inr (at_relay_factor, 1))
  | Ok n =>
      match ValidateLocalOnly ag (local c) (listKeys c) with
      | Some e =>
          ([UI_Error ("Error validating local-only: " +:+ e)],
           inr (at_local_only, 1))
      | None =>
          match APIClient w with
          | Err e =>
              ([New_APIClient; UI_Error ("Error connecting to Consul agent: " +:+ e)],
               inr (at_client_error, 1))
          | Ok client =>
              (New_APIClient :: (dispatch w client n c).1,
               inr (dispatch w client n c).2)
          end
      end
  end.

(** ** Reading a formatted block *)

Definition is_LF (c : ascii) : bool := Ascii.eqb c LF.

(** A line feed occurs in the string. *)
Fixpoint has_LF (s : string) : bool :=
  match s with
  | EmptyString => false
  | String c rest => is_LF c || has_LF rest
  end.

(** The string begins, or ends, with a line feed. *)
Definition starts_LF (s : string) : bool :=
  match s with
  | EmptyString => false
  | String c _ => is_LF c
  end.

Fixpoint ends_LF (s : string) : bool :=
  match s with
  | EmptyString => false
  | String c EmptyString => is_LF c
  | String _ rest => ends_LF rest
  end.

(** [pat] occurs in [s]. *)
Fixpoint occurs (pat s : string) : bool :=
  String.prefix pat s ||
  match s with
  | EmptyString => false
  | String _ rest => occurs pat rest
  end.

(** A run of [k] line feeds. *)
Fixpoint LFs (k : nat) : string :=
  match k with
  | O => ""
  | S k => String LF (LFs k)
  end.

(** An empty line inside a text: two line feeds in a row.  Two empty lines in
    a row: three line feeds in a row. *)
Definition has_blank_line (s : string) : bool := occurs (LFs 2) s.
Definition has_two_blank_lines (s : string) : bool := occurs (LFs 3) s.

(** The text made of the given lines, each one begun on a new line. *)
Fixpoint unlines (ls : list string) : string :=
  match ls with
  | [] => ""
  | l :: rest => nl +:+ l +:+ unlines rest
  end.

(** The header line of a pool, as the block layout describes it. *)
Definition header (response : KeyringResponse) : string :=
  (if WAN response then "WAN" else Datacenter response +:+ " (LAN)") +:+
  (if decide (Segment response = "") then ""
   else " [" +:+ Segment response +:+ "]") +:+
  ":".

(** A section of a block as the lines joined in [formatResponse] see it: its
    lines, or one empty string when it has none. *)
Definition section (ls : list string) : list string :=
  match ls with
  | [] => [""]
  | _ => ls
  end.

(** No site, segment, node name, message or key of the response holds a line
    feed. *)
Definition plain (response : KeyringResponse) (keys : gmap string Z) : bool :=
  negb (has_LF (Datacenter response)) &&
  negb (has_LF (Segment response)) &&
  forallb (λ e : string * string, negb (has_LF e.1) && negb (has_LF e.2))
    (map_to_list (Messages response)) &&
  forallb (λ e : string * Z, negb (has_LF e.1)) (map_to_list keys).

(** [pat] stands in [s] as it is. *)
Definition contains (s pat : string) : Prop := ∃ x y, s = x +:+ pat +:+ y.

(** A line that is neither empty nor broken by a line feed. *)
Definition solid (l : string) : Prop := l ≠ "" ∧ has_LF l = false.

(** The replacement that [formatResponse] applies. *)
Local Abbreviation collapse s := (strings_Replace s (nl +:+ nl) nl).

(** ** Concrete invocations and worlds *)

(** The command after parsing the given flags. *)
Definition flags (install use remove : string) (list listPrimary : bool)
    (relayFactor : Z) (localOnly : bool) : cmd :=
  {| installKey := install; useKey := use; removeKey := remove;
     listKeys := list; listPrimaryKeys := listPrimary;
     relay := relayFactor; local := localOnly;
     help := "Usage: consul keyring [options]" |}.

(** [consul keyring -list]. *)
Definition cmd_list : cmd := flags "" "" "" true false 0 false.
(** [consul keyring -list-primary]. *)
Definition cmd_list_primary : cmd := flags "" "" "" false true 0 false.
(** [consul keyring -list -list-primary]. *)
Definition cmd_list_both : cmd := flags "" "" "" true true 0 false.
(** [consul keyring -list-primary -local-only]. *)
Definition cmd_list_primary_local : cmd := flags "" "" "" false true 0 true.
(** [consul keyring -install=k1 -local-only]. *)
Definition cmd_install_local : cmd := flags "k1" "" "" false false 0 true.
(** [consul keyring -install=k1 -relay-factor=6]. *)
Definition cmd_install_relay6 : cmd := flags "k1" "" "" false false 6 false.
(** [consul keyring -remove=k1]. *)
Definition cmd_remove : cmd := flags "" "" "k1" false false 0 false.

(** The runtime visits a map in the order of its keys, or in the opposite
    order. *)
Definition range_sorted : MapRange := λ V m, map_to_list m.
Definition range_reversed : MapRange := λ V m, reverse (map_to_list m).

(** A pool of three nodes, one of which reports a message. *)
Definition pool_dc1 : KeyringResponse :=
  {| WAN := false; Datacenter := "dc1"; Segment := "";
     Messages := {[ "node2" := "cannot remove primary key" ]};
     Keys := {[ "abc123" := 3 ]};
     PrimaryKeys := {[ "abc123" := 3 ]};
     NumNodes := 3 |}.

(** A wide-area pool without messages. *)
Definition pool_wan : KeyringResponse :=
  {| WAN := true; Datacenter := "dc1"; Segment := "";
     Messages := ∅;
     Keys := {[ "abc123" := 5 ]};
     PrimaryKeys := {[ "abc123" := 5 ]};
     NumNodes := 5 |}.

(** A pool in which two nodes report a message and two keys are installed. *)
Definition pool_two : KeyringResponse :=
  {| WAN := false; Datacenter := "dc1"; Segment := "alpha";
     Messages := <[ "node1" := "ok" ]> {[ "node2" := "late" ]};
     Keys := <[ "abc123" := 2 ]> {[ "def456" := 1 ]};
     PrimaryKeys := {[ "abc123" := 2 ]};
     NumNodes := 2 |}.

(** A pool whose only message holds five line feeds in a row. *)
Definition pool_blank : KeyringResponse :=
  {| WAN := false; Datacenter := "dc1"; Segment := "";
     Messages := {[ "node1" := "a" +:+ nl +:+ nl +:+ nl +:+ nl +:+ nl +:+ "b" ]};
     Keys := {[ "abc123" := 1 ]};
     PrimaryKeys := {[ "abc123" := 1 ]};
     NumNodes := 1 |}.

(** A client whose list verb answers with the given responses and whose write
    verbs succeed, reached by a runtime that visits maps in key order. *)
Definition client_answering (rs : list KeyringResponse) : Operator :=
  {| KeyringList _ := Ok rs;
     KeyringInstall _ _ := None;
     KeyringUse _ _ := None;
     KeyringRemove _ _ := None |}.

Definition world_answering (rs : list KeyringResponse) : World :=
  {| APIClient := Ok (client_answering rs); map_order _ := range_sorted |}.

(** ** Further readings of an invocation and of a block *)

(** The events that call a verb of the client, and those that report an
    error. *)
Definition is_call (e : Event) : bool :=
  match e with
  | Call_KeyringList _
  | Call_KeyringInstall _ _
  | Call_KeyringUse _ _
  | Call_KeyringRemove _ _ => true
  | _ => false
  end.

Definition is_error (e : Event) : bool :=
  match e with UI_Error _ => true | _ => false end.

Definition errors (m : M Empty_set) : list Event := List.filter is_error (events m).

(** How many of the given arguments are not empty, by the test of the loop of
    [Run]. *)
Definition populated_among (args : list string) : nat :=
  length (List.filter (λ arg, (0 <? String.length arg)%nat) args).

(** The string without its line feeds. *)
Fixpoint strip_LF (s : string) : string :=
  match s with
  | EmptyString => ""
  | String c rest => if is_LF c then strip_LF rest else String c (strip_LF rest)
  end.

(** The byte occurs in the string. *)
Fixpoint has_byte (b : ascii) (s : string) : bool :=
  match s with
  | EmptyString => false
  | String c rest => Ascii.eqb c b || has_byte b rest
  end.

(** An invocation with a key argument and a relay factor, nothing else. *)
Definition cmd_install : cmd := flags "k1" "" "" false false 2 false.
Definition cmd_use : cmd := flags "" "k1" "" false false 2 false.

(** A client that cannot be built, and one whose write verbs fail. *)
Definition world_unreachable : World :=
  {| APIClient := Err "connection refused"; map_order _ := range_sorted |}.

Definition client_failing : Operator :=
  {| KeyringList _ := Err "no leader";
     KeyringInstall _ _ := Some "no leader";
     KeyringUse _ _ := Some "no leader";
     KeyringRemove _ _ := Some "no leader" |}.

Definition world_failing : World :=
  {| APIClient := Ok client_failing; map_order _ := range_sorted |}.

(** ** The pieces of a block *)

(** The strings one after the other. *)
Fixpoint glue (ls : list string) : string :=
  match ls with
  | [] => ""
  | l :: rest => l +:+ glue rest
  end.

(** What the replacement makes of the text up to the first message line: the
    line feed that opens the block, the header line and its line feed, and,
    when there is no message, the line feed of the empty message section. *)
Definition head_part (response : KeyringResponse) : string :=
  collapse (nl +:+ header response +:+ nl +:+
            (if decide (Messages response = ∅) then nl else "")).

(** What the replacement makes of a message line and the line feed that
    follows it, and of a key line. *)
Definition message_piece (e : string * string) : string :=
  collapse (messageLine e +:+ nl).

Definition key_piece (total : Z) (e : string * Z) : string :=
  collapse (keyLine total e).

(** The string begins with a byte that is not a line feed. *)
Definition begun (l : string) : Prop :=
  ∃ c rest, l = String c rest ∧ is_LF c = false.

(** A pool whose only message holds an empty line. *)
Definition pool_split : KeyringResponse :=
  {| WAN := false; Datacenter := "dc1"; Segment := "";
     Messages := {[ "node1" := "x" +:+ nl +:+ nl +:+ "y" ]};
     Keys := {[ "abc123" := 1 ]};
     PrimaryKeys := {[ "abc123" := 1 ]};
     NumNodes := 1 |}.
(** ** Facts about the monad and the loops *)

Lemma for_range_emit {A} (f : nat → A → Event) (xs : list A) (i : nat) :
  for_range i xs (λ j x, emit (f j x)) = (imap (λ j, f (i + j)%nat) xs, inl tt).
Proof.
  revert i. induction xs as [|x xs IH]; intros i; [reflexivity|].
  cbn [for_range]. unfold mbind, M_bind, emit. rewrite IH. cbn.
  rewrite Nat.add_0_r. do 2 f_equal.
  apply imap_ext. intros j y _. cbn. f_equal. lia.
Qed.

Lemma selection_passes_iff (c : cmd) :
  selection c = ([], inl true) ↔
  populated c = 1%nat ∨
  (listKeys c = true ∧ listPrimaryKeys c = true ∧ mutating c = false).
Proof.
  destruct c as [ik uk rk lk lpk r l h]. unfold selection, populated, mutating.
  cbn [installKey useKey removeKey listKeys listPrimaryKeys].
  destruct lk, lpk, ik as [|a1 ik], uk as [|a2 uk], rk as [|a3 rk];
    vm_compute; split; intros H;
    try discriminate; try (left; reflexivity); try (right; repeat split; reflexivity);
    try (destruct H as [H|(_ & _ & H)]; discriminate);
    try (destruct H as [H|(H & _)]; discriminate);
    try (destruct H as [H|(_ & H & _)]; discriminate); try reflexivity.
Qed.

Lemma selection_outcomes (c : cmd) :
  selection c = ([], inl true) ∨
  selection c = ([], inl false) ∧ populated c = 0%nat ∨
  selection c = ([UI_Error "Only a single action is allowed"],
                 inr (at_multiple_actions, 1)) ∧ (2 ≤ populated c)%nat.
Proof.
  destruct c as [ik uk rk lk lpk r l h]. unfold selection, populated.
  cbn [installKey useKey removeKey listKeys listPrimaryKeys].
  destruct lk, lpk, ik as [|a1 ik], uk as [|a2 uk], rk as [|a3 rk];
    vm_compute; auto 10 with lia.
Qed.

Lemma run_parsed_unfold (ag : Agent) (w : World) (c : cmd) :
  run_parsed ag w c =
  match selection c with
  | (log, inr x) => (log, inr x)
  | (log, inl false) => (log ++ [UI_Error (help c)], inr (at_no_action, 1))
  | (log, inl true) =>
      ((log ++ (validated ag w c).1), (validated ag w c).2)
  end.
Proof.
  destruct c as [ik uk rk lk lpk r l h].
  unfold run_parsed, selection, validated, dispatch.
  cbn [installKey useKey removeKey listKeys listPrimaryKeys relay local help].
  destruct lk, lpk, ik as [|a1 ik], uk as [|a2 uk], rk as [|a3 rk];
    try reflexivity;
    destruct (ParseRelayFactor ag r) as [n|e]; try reflexivity;
    destruct (ValidateLocalOnly ag l _) as [e|]; try reflexivity;
    destruct (APIClient w) as [client|e]; try reflexivity;
    cbn -[formatResponse for_range];
    repeat match goal with
    | |- context [KeyringList ?cl ?q] => destruct (KeyringList cl q) as [rs|e]
    | |- context [KeyringInstall ?cl ?k ?o] => destruct (KeyringInstall cl k o) as [e|]
    | |- context [KeyringUse ?cl ?k ?o] => destruct (KeyringUse cl k o) as [e|]
    | |- context [KeyringRemove ?cl ?k ?o] => destruct (KeyringRemove cl k o) as [e|]
    end;
    try reflexivity;
    unfold mbind, M_bind;
    rewrite (for_range_emit (λ i r, UI_Output (formatResponse (map_order w i) r _)));
    cbn -[formatResponse imap]; rewrite app_nil_r; reflexivity.
Qed.

(** ** What the validations guarantee *)

Lemma validated_rejects (ag : Agent) (w : World) (c : cmd) :
  is_ok (ParseRelayFactor ag (relay c)) = false ∨
  ValidateLocalOnly ag (local c) (listKeys c) ≠ None →
  (validated ag w c).2 = inr (at_relay_factor, 1) ∧
    List.filter is_network (validated ag w c).1 = [] ∨
  (validated ag w c).2 = inr (at_local_only, 1) ∧
    List.filter is_network (validated ag w c).1 = [].
Proof.
  unfold validated. intros H.
  destruct (ParseRelayFactor ag (relay c)) as [n|e]; [|left; split; reflexivity].
  destruct (ValidateLocalOnly ag (local c) (listKeys c)) as [e|];
    [right; split; reflexivity|].
  destruct H as [H|H]; [discriminate|congruence].
Qed.

(** Whatever the validators of package [agent] are, an invocation that fails
    the single-action check or one of the two validations exits with 1 and has
    neither built a client nor called a verb. *)
Lemma rejected_before_network (ag : Agent) (w : World) (c : cmd) :
  selection c ≠ ([], inl true) ∨
  is_ok (ParseRelayFactor ag (relay c)) = false ∨
  ValidateLocalOnly ag (local c) (listKeys c) ≠ None →
  exit_code (Run ag w (Some c)) = 1 ∧ network (Run ag w (Some c)) = [].
Proof.
  intros H. unfold exit_code, returned, network, events. cbn [Run].
  rewrite run_parsed_unfold.
  destruct (selection_outcomes c) as [Hs|[[Hs _]|[Hs _]]]; rewrite Hs;
    [|split; reflexivity..].
  destruct H as [H|H]; [congruence|].
  cbn [fst snd app].
  destruct (validated_rejects ag w c H) as [[-> ->]|[-> ->]]; split; reflexivity.
Qed.

(** The cascade reaches the trailing [return] only when no argument at all is
    populated. *)
Lemma dispatch_at_end (w : World) (client : Operator) (n : Z) (c : cmd) :
  (dispatch w client n c).2.1 = at_end → populated c = 0%nat.
Proof.
  destruct c as [ik uk rk lk lpk r l h]. unfold dispatch, populated.
  cbn [installKey useKey removeKey listKeys listPrimaryKeys local].
  destruct lk, lpk, ik as [|a1 ik], uk as [|a2 uk], rk as [|a3 rk];
    cbn -[formatResponse imap];
    repeat match goal with
    | |- context [match ?x with _ => _ end] => destruct x
    end; cbn; try discriminate; reflexivity.
Qed.

Lemma dispatch_one_branch (w : World) (client : Operator) (n : Z) (c : cmd) :
  populated c ≠ 0%nat →
  length (List.filter is_info (dispatch w client n c).1) = 1%nat ∧
  branch_site (dispatch w client n c).2.1 = true.
Proof.
  assert (Hout : ∀ (f : nat → KeyringResponse → string) rs,
             List.filter is_info (imap (λ i r, UI_Output (f i r)) rs) = []).
  { intros f rs. revert f. induction rs as [|x rs IH]; intros f; [reflexivity|].
    cbn. apply IH. }
  destruct c as [ik uk rk lk lpk r l h]. unfold dispatch, populated.
  cbn [installKey useKey removeKey listKeys listPrimaryKeys local].
  destruct lk, lpk, ik as [|a1 ik], uk as [|a2 uk], rk as [|a3 rk];
    cbn -[formatResponse imap]; intros Hp; try (exfalso; apply Hp; reflexivity);
    repeat match goal with
    | |- context [match ?x with _ => _ end] => destruct x
    end; cbn -[formatResponse imap];
    rewrite ?Hout; split; reflexivity.
Qed.

Lemma selection_populated (c : cmd) :
  selection c = ([], inl true) → populated c ≠ 0%nat.
Proof.
  intros H. destruct (selection_outcomes c) as [_|[[H' _]|[H' _]]];
    [|congruence..].
  apply selection_passes_iff in H as [->|(Hl & _ & _)]; [lia|].
  unfold populated. rewrite Hl. cbn. lia.
Qed.

(** An invocation that passes every validation and gets its client runs the
    cascade. *)
Lemma run_dispatches (ag : Agent) (w : World) (c : cmd) (n : Z) (client : Operator) :
  selection c = ([], inl true) →
  ParseRelayFactor ag (relay c) = Ok n →
  ValidateLocalOnly ag (local c) (listKeys c) = None →
  APIClient w = Ok client →
  Run ag w (Some c) =
  (New_APIClient :: (dispatch w client n c).1, inr (dispatch w client n c).2).
Proof.
  intros Hs Hp Hv Hc. cbn [Run]. rewrite run_parsed_unfold, Hs.
  unfold validated. rewrite Hp, Hv, Hc. reflexivity.
Qed.

Lemma output_events (f : nat → KeyringResponse → string) (rs : list KeyringResponse) :
  omap (λ e, match e with UI_Output s => Some s | _ => None end)
    (imap (λ i r, UI_Output (f i r)) rs) = imap f rs ∧
  List.filter is_network (imap (λ i r, UI_Output (f i r)) rs) = [] ∧
  List.filter is_info (imap (λ i r, UI_Output (f i r)) rs) = [].
Proof.
  revert f. induction rs as [|r rs IH]; intros f; [repeat split|].
  destruct (IH (f ∘ S)) as (H1 & H2 & H3). cbn. repeat split; try assumption.
  f_equal. exact H1.
Qed.

(** The keys a read command prints: all keys for list, the primary ones for
    list-primary. *)
Lemma dispatch_read (w : World) (client : Operator) (n : Z) (c : cmd) :
  listKeys c = true ∨ listPrimaryKeys c = true →
  let q := {| q_RelayFactor := n; q_LocalOnly := local c |} in
  match KeyringList client q with
  | Err e =>
      ∃ info s,
        dispatch w client n c =
        ([UI_Info info; Call_KeyringList q; UI_Error ("error: " +:+ e)], (s, 1))
  | Ok rs =>
      ∃ info s,
        dispatch w client n c =
        (UI_Info info :: Call_KeyringList q ::
         imap (λ i r, UI_Output
                        (formatResponse (map_order w i) r
                           (if listKeys c then Keys r else PrimaryKeys r))) rs,
         (s, 0)) ∧
        s = (if listKeys c then at_list else at_list_primary)
  end.
Proof.
  intros H. unfold dispatch. cbn zeta.
  destruct (listKeys c).
  - destruct (KeyringList client _); eexists _, _; [split|]; reflexivity.
  - destruct H as [H|H]; [discriminate|]. rewrite H.
    destruct (KeyringList client _); eexists _, _; [split|]; reflexivity.
Qed.

(** ** The model on small inputs *)

Example poolName_lan : poolName "dc1" false "" = "dc1 (LAN)".
Proof. reflexivity. Qed.

Example poolName_wan_segment : poolName "dc1" true "alpha" = "WAN [alpha]".
Proof. reflexivity. Qed.

Example replace_three_line_feeds :
  strings_Replace ("a" +:+ LFs 3 +:+ "b") (LFs 2) nl = "a" +:+ LFs 2 +:+ "b".
Proof. reflexivity. Qed.

Example replace_leftmost_first : strings_Replace "aaa" "aa" "b" = "ba".
Proof. reflexivity. Qed.

Example formatResponse_wan :
  formatResponse range_sorted pool_wan (Keys pool_wan) =
  nl +:+ "WAN:" +:+ nl +:+ "  abc123 [5/5]".
Proof. reflexivity. Qed.

Example formatResponse_no_keys :
  formatResponse range_sorted pool_wan ∅ = nl +:+ "WAN:" +:+ nl.
Proof. reflexivity. Qed.

Example run_list :
  Run agent (world_answering [pool_wan]) (Some cmd_list) =
  ([New_APIClient;
    UI_Info "Gathering installed encryption keys...";
    Call_KeyringList {| q_RelayFactor := 0; q_LocalOnly := false |};
    UI_Output (nl +:+ "WAN:" +:+ nl +:+ "  abc123 [5/5]")],
   inr (at_list, 0)).
Proof. reflexivity. Qed.

Example run_no_action :
  Run agent (world_answering []) (Some (flags "" "" "" false false 0 false)) =
  ([UI_Error "Usage: consul keyring [options]"], inr (at_no_action, 1)).
Proof. reflexivity. Qed.

Example run_install_and_remove :
  Run agent (world_answering []) (Some (flags "k1" "" "k2" false false 0 false)) =
  ([UI_Error "Only a single action is allowed"], inr (at_multiple_actions, 1)).
Proof. reflexivity. Qed.

(** ** Strings *)

Lemma app_cons (c : ascii) (x y : string) :
  String c x +:+ y = String c (x +:+ y).
Proof. reflexivity. Qed.

Lemma app_empty_l (y : string) : "" +:+ y = y.
Proof. reflexivity. Qed.

Lemma app_empty_r (x : string) : x +:+ "" = x.
Proof. induction x as [|c x IH]; [reflexivity|]. rewrite app_cons, IH. reflexivity. Qed.

Lemma app_assoc_s (x y z : string) : (x +:+ y) +:+ z = x +:+ (y +:+ z).
Proof.
  induction x as [|c x IH]; [reflexivity|]. rewrite !app_cons, IH. reflexivity.
Qed.

Lemma has_LF_app (x y : string) : has_LF (x +:+ y) = has_LF x || has_LF y.
Proof.
  induction x as [|c x IH]; [reflexivity|].
  rewrite app_cons. cbn [has_LF]. rewrite IH, orb_assoc. reflexivity.
Qed.

Lemma starts_LF_app (x y : string) :
  x ≠ "" → has_LF x = false → starts_LF (x +:+ y) = false.
Proof.
  destruct x as [|c x]; [congruence|]. intros _ H. cbn in *.
  apply orb_false_iff in H as [H _]. exact H.
Qed.

Lemma is_LF_true (c : ascii) : is_LF c = true → c = LF.
Proof. apply Ascii.eqb_eq. Qed.

(** The decimal digits of an integer hold no line feed. *)
Lemma has_LF_fmt_d (n : Z) : has_LF (fmt_d n) = false.
Proof.
  assert (Hu : ∀ d, has_LF (NilEmpty.string_of_uint d) = false).
  { induction d; cbn; auto. }
  assert (Hz : ∀ d, has_LF (NilZero.string_of_uint d) = false).
  { intros d. destruct d; try reflexivity; apply (Hu (_ _)). }
  unfold fmt_d, NilZero.string_of_int.
  destruct (Z.to_int n); [apply Hz|]. cbn. apply Hz.
Qed.

(** *** The replacement of two line feeds by one *)

Lemma collapse_empty : collapse "" = "".
Proof. reflexivity. Qed.

Lemma collapse_LF_LF (s : string) :
  collapse (String LF (String LF s)) = String LF (collapse s).
Proof.
  unfold strings_Replace. cbn [replace_from].
  assert (String.prefix (nl +:+ nl) (String LF (String LF s)) = true) as ->;
    [destruct s; reflexivity|reflexivity].
Qed.

Lemma collapse_LF_end : collapse (String LF "") = String LF "".
Proof. reflexivity. Qed.

Lemma collapse_other (c : ascii) (s : string) :
  is_LF c = false → collapse (String c s) = String c (collapse s).
Proof.
  intros H. unfold strings_Replace. cbn [replace_from].
  assert (String.prefix (nl +:+ nl) (String c s) = false) as ->; [|reflexivity].
  change (nl +:+ nl) with (String LF (String LF "")).
  cbn. destruct (ascii_dec LF c) as [<-|_]; [discriminate|reflexivity].
Qed.

Lemma collapse_LF_other (s : string) :
  starts_LF s = false → collapse (String LF s) = String LF (collapse s).
Proof.
  intros H. destruct s as [|c s]; [reflexivity|]. cbn in H.
  unfold strings_Replace. cbn [replace_from].
  assert (String.prefix (nl +:+ nl) (String LF (String c s)) = false) as ->;
    [|reflexivity].
  change (nl +:+ nl) with (String LF (String LF "")).
  cbn. destruct (ascii_dec LF c) as [<-|_]; [discriminate|reflexivity].
Qed.

(** A piece without a line feed passes through unchanged. *)
Lemma collapse_plain_app (x y : string) :
  has_LF x = false → collapse (x +:+ y) = x +:+ collapse y.
Proof.
  induction x as [|c x IH]; [reflexivity|]. cbn [has_LF]. intros H.
  apply orb_false_iff in H as [Hc Hx].
  rewrite app_cons, collapse_other by exact Hc. rewrite IH by exact Hx. reflexivity.
Qed.

Lemma collapse_nl_nl (y : string) : collapse (nl +:+ nl +:+ y) = nl +:+ collapse y.
Proof. apply collapse_LF_LF. Qed.

Lemma collapse_nl (y : string) :
  starts_LF y = false → collapse (nl +:+ y) = nl +:+ collapse y.
Proof. apply collapse_LF_other. Qed.

Lemma collapse_line (l t : string) :
  l ≠ "" → has_LF l = false → collapse (nl +:+ l +:+ t) = nl +:+ l +:+ collapse t.
Proof.
  intros Hne Hl. rewrite collapse_nl by (apply starts_LF_app; assumption).
  rewrite collapse_plain_app by exact Hl. reflexivity.
Qed.

(** Lines that are neither empty nor broken pass through unchanged. *)
Lemma collapse_unlines (ls : list string) (t : string) :
  Forall solid ls → collapse (unlines ls +:+ t) = unlines ls +:+ collapse t.
Proof.
  induction 1 as [|l ls [Hne Hl] _ IH]; [reflexivity|].
  cbn [unlines]. rewrite !app_assoc_s, collapse_line by assumption.
  rewrite IH. reflexivity.
Qed.

Lemma join_cons (l : string) (ls : list string) :
  strings_Join (l :: ls) nl = l +:+ unlines ls.
Proof.
  revert l. induction ls as [|l' ls IH]; intros l.
  - cbn. rewrite app_empty_r. reflexivity.
  - change (strings_Join (l :: l' :: ls) nl)
      with (l +:+ nl +:+ strings_Join (l' :: ls) nl).
    rewrite IH. reflexivity.
Qed.

(** One section of a block followed by [t]: an empty section leaves its line
    feed to [t], a section with lines keeps them. *)
Lemma collapse_section (ls : list string) (t : string) :
  Forall solid ls →
  collapse (nl +:+ strings_Join ls nl +:+ t) =
  match ls with
  | [] => collapse (nl +:+ t)
  | _ => unlines ls +:+ collapse t
  end.
Proof.
  intros H. destruct ls as [|l ls]; [reflexivity|].
  inversion H as [|? ? [Hne Hl] Hls]; subst.
  rewrite join_cons, app_assoc_s, collapse_line by assumption.
  rewrite collapse_unlines by assumption.
  cbn [unlines]. rewrite !app_assoc_s. reflexivity.
Qed.

(** Two pieces that do not meet in a pair of line feeds are treated
    separately. *)
Lemma collapse_app (x y : string) :
  ends_LF x && starts_LF y = false → collapse (x +:+ y) = collapse x +:+ collapse y.
Proof.
  revert y.
  cut ((∀ y, ends_LF x && starts_LF y = false →
             collapse (x +:+ y) = collapse x +:+ collapse y) ∧
       (∀ c y, ends_LF (String c x) && starts_LF y = false →
             collapse (String c x +:+ y) = collapse (String c x) +:+ collapse y)).
  { intros [H _]. exact H. }
  induction x as [|c0 x [IH0 IH1]].
  - split; [reflexivity|]. intros c y H. rewrite app_cons, app_empty_l.
    destruct (is_LF c) eqn:Hc.
    + apply is_LF_true in Hc as ->. cbn in H.
      rewrite collapse_LF_other by exact H. reflexivity.
    + rewrite !collapse_other by exact Hc. reflexivity.
  - split; [exact (IH1 c0)|]. intros c y H. rewrite !app_cons.
    destruct (is_LF c) eqn:Hc.
    + apply is_LF_true in Hc as ->. destruct (is_LF c0) eqn:Hc0.
      * apply is_LF_true in Hc0 as ->. rewrite !collapse_LF_LF, app_cons.
        f_equal. apply IH0. destruct x; [|exact H]. reflexivity.
      * rewrite (collapse_LF_other (String c0 (x +:+ y))) by exact Hc0.
        rewrite (collapse_LF_other (String c0 x)) by exact Hc0.
        rewrite app_cons. f_equal. rewrite <- app_cons. apply IH1. exact H.
    + rewrite (collapse_other c (String c0 (x +:+ y))) by exact Hc.
      rewrite (collapse_other c (String c0 x)) by exact Hc.
      rewrite app_cons. f_equal. rewrite <- app_cons. apply IH1. exact H.
Qed.

(** A run of [k] line feeds is left with every second one. *)
Lemma collapse_run (k : nat) (y : string) :
  starts_LF y = false → collapse (LFs k +:+ y) = LFs (Nat.div2 (S k)) +:+ collapse y.
Proof.
  intros Hy.
  cut (collapse (LFs k +:+ y) = LFs (Nat.div2 (S k)) +:+ collapse y ∧
       collapse (LFs (S k) +:+ y) = LFs (Nat.div2 (S (S k))) +:+ collapse y).
  { intros [H _]. exact H. }
  induction k as [|k [IH0 IH1]].
  - split; [reflexivity|]. apply collapse_LF_other. exact Hy.
  - split; [exact IH1|].
    change (LFs (S (S k)) +:+ y) with (String LF (String LF (LFs k +:+ y))).
    rewrite collapse_LF_LF, IH0. reflexivity.
Qed.

Lemma has_blank_line_cons (c : ascii) (s : string) :
  has_blank_line (String c s) = is_LF c && starts_LF s || has_blank_line s.
Proof.
  unfold has_blank_line. cbn [occurs]. f_equal.
  cbn. destruct (ascii_dec LF c) as [<-|Hne].
  - destruct s as [|b s]; [reflexivity|]. cbn.
    destruct (ascii_dec LF b) as [<-|Hb]; [destruct s; reflexivity|].
    symmetry. apply Ascii.eqb_neq. congruence.
  - symmetry. apply andb_false_iff. left. apply Ascii.eqb_neq. congruence.
Qed.

(** A piece without an empty line survives the replacement whatever follows
    it. *)
Lemma collapse_keeps_prefix (l b : string) :
  has_blank_line l = false → ∃ y, collapse (l +:+ b) = l +:+ y.
Proof.
  induction l as [|c l IH]; [exists (collapse b); reflexivity|].
  rewrite has_blank_line_cons. intros H.
  apply orb_false_iff in H as [Hc Hl]. destruct (IH Hl) as [y Hy].
  rewrite app_cons. destruct (is_LF c) eqn:Ec.
  - apply is_LF_true in Ec as ->. cbn in Hc. destruct l as [|c' l].
    + rewrite app_empty_l. destruct b as [|cb b]; [exists ""; reflexivity|].
      destruct (is_LF cb) eqn:Eb.
      * apply is_LF_true in Eb as ->. rewrite collapse_LF_LF. eexists; reflexivity.
      * rewrite collapse_LF_other by exact Eb. eexists; reflexivity.
    + rewrite collapse_LF_other by exact Hc. rewrite Hy. eexists; reflexivity.
  - rewrite collapse_other by exact Ec. rewrite Hy. eexists; reflexivity.
Qed.

Lemma collapse_contains (a l b : string) :
  starts_LF l = false → l ≠ "" → has_blank_line l = false →
  contains (collapse (a +:+ l +:+ b)) l.
Proof.
  intros Hs Hne Hl.
  rewrite collapse_app.
  - destruct (collapse_keeps_prefix l b Hl) as [y ->]. eexists _, _. reflexivity.
  - apply andb_false_iff. right. destruct l; [congruence|exact Hs].
Qed.

Lemma unlines_contains (ls : list string) (l : string) :
  l ∈ ls → ∃ x y, unlines ls = x +:+ l +:+ y.
Proof.
  induction 1 as [l ls|l l' ls _ (x & y & IH)]; cbn [unlines].
  - exists nl, (unlines ls). reflexivity.
  - exists (nl +:+ l' +:+ x), y. rewrite IH, !app_assoc_s. reflexivity.
Qed.

Lemma join_contains (ls : list string) (l : string) :
  l ∈ ls → ∃ x y, strings_Join ls nl = x +:+ l +:+ y.
Proof.
  intros H. destruct ls as [|l0 ls]; [inversion H|]. rewrite join_cons.
  apply elem_of_cons in H as [->|H].
  - exists "", (unlines ls). reflexivity.
  - destruct (unlines_contains ls l H) as (x & y & ->).
    exists (l0 +:+ x), y. rewrite !app_assoc_s. reflexivity.
Qed.

(** No empty line arises between solid lines. *)
Lemma has_blank_line_plain_app (l t : string) :
  has_LF l = false → has_blank_line (l +:+ t) = has_blank_line t.
Proof.
  induction l as [|c l IH]; [reflexivity|]. cbn [has_LF]. intros H.
  apply orb_false_iff in H as [Hc Hl].
  rewrite app_cons, has_blank_line_cons, Hc, IH by exact Hl. reflexivity.
Qed.

Lemma has_blank_line_unlines (ls : list string) (t : string) :
  Forall solid ls →
  has_blank_line (unlines ls +:+ t) = has_blank_line t.
Proof.
  induction 1 as [|l ls [Hne Hl] _ IH]; [reflexivity|].
  cbn [unlines]. rewrite !app_assoc_s.
  change (nl +:+ l +:+ unlines ls +:+ t) with (String LF (l +:+ unlines ls +:+ t)).
  rewrite has_blank_line_cons, starts_LF_app by assumption.
  rewrite has_blank_line_plain_app by exact Hl. exact IH.
Qed.

(** ** The formatter *)

Lemma poolName_header (r : KeyringResponse) :
  poolName (Datacenter r) (WAN r) (Segment r) +:+ ":" = header r.
Proof.
  unfold poolName, header. rewrite app_assoc_s. f_equal.
  destruct (String.eqb_spec (Segment r) "") as [->|Hne].
  - reflexivity.
  - destruct (decide (Segment r = "")); [contradiction|reflexivity].
Qed.

Lemma assembled_eq (ρ : MapRange) (r : KeyringResponse) (keys : gmap string Z) :
  assembled ρ r keys =
  nl +:+ header r +:+
  nl +:+ strings_Join (messageLine <$> ρ _ (Messages r)) nl +:+
  nl +:+ strings_Join (keyLine (NumNodes r) <$> ρ _ keys) nl.
Proof.
  unfold assembled, formatMessages, formatKeys. cbn [strings_Join].
  rewrite poolName_header. reflexivity.
Qed.

Lemma join_section (ls : list string) :
  strings_Join (section ls) nl = strings_Join ls nl.
Proof. destruct ls; reflexivity. Qed.

Lemma join_app (xs ys : list string) :
  xs ≠ [] → ys ≠ [] →
  strings_Join (xs ++ ys) nl = strings_Join xs nl +:+ nl +:+ strings_Join ys nl.
Proof.
  intros Hx Hy. induction xs as [|x xs IH]; [congruence|].
  destruct xs as [|x' xs].
  - destruct ys; [congruence|]. reflexivity.
  - change (strings_Join ((x :: x' :: xs) ++ ys) nl)
      with (x +:+ nl +:+ strings_Join ((x' :: xs) ++ ys) nl).
    rewrite IH by discriminate.
    change (strings_Join (x :: x' :: xs) nl)
      with (x +:+ nl +:+ strings_Join (x' :: xs) nl).
    rewrite !app_assoc_s. reflexivity.
Qed.

Lemma section_nonempty (ls : list string) : section ls ≠ [].
Proof. destruct ls; discriminate. Qed.

(** The assembled text is the join of an empty first line, the header line and
    the two sections. *)
Lemma assembled_sections (ρ : MapRange) (r : KeyringResponse) (keys : gmap string Z) :
  assembled ρ r keys =
  strings_Join
    ("" :: header r ::
     section (messageLine <$> ρ _ (Messages r)) ++
     section (keyLine (NumNodes r) <$> ρ _ keys)) nl.
Proof.
  rewrite assembled_eq.
  pose proof (section_nonempty (messageLine <$> ρ _ (Messages r))) as Hm.
  pose proof (section_nonempty (keyLine (NumNodes r) <$> ρ _ keys)) as Hk.
  set (ms := section (messageLine <$> _)) in *.
  set (ks := section (keyLine _ <$> _)) in *.
  assert (strings_Join ("" :: header r :: ms ++ ks) nl =
          "" +:+ nl +:+ header r +:+ nl +:+ strings_Join (ms ++ ks) nl) as ->.
  { destruct ms as [|m ms]; [congruence|]. reflexivity. }
  rewrite join_app by assumption. subst ms ks. rewrite !join_section.
  reflexivity.
Qed.

Lemma range_lookup {V} (ρ : MapRange) (m : gmap string V) (k : string) (v : V) :
  range_ok ρ → (k, v) ∈ ρ V m ↔ m !! k = Some v.
Proof. intros H. rewrite (H V m). apply elem_of_map_to_list. Qed.

Lemma solid_header (r : KeyringResponse) :
  has_LF (Datacenter r) = false → has_LF (Segment r) = false → solid (header r).
Proof.
  intros Hd Hs. unfold header. split.
  - destruct (WAN r); [discriminate|].
    destruct (Datacenter r); discriminate.
  - rewrite !has_LF_app. destruct (WAN r), (decide _);
      rewrite ?has_LF_app, ?Hd, ?Hs; reflexivity.
Qed.

Lemma solid_messageLine (from msg : string) :
  has_LF from = false → has_LF msg = false → solid (messageLine (from, msg)).
Proof.
  intros Hf Hm. unfold messageLine. split; [discriminate|].
  cbn [fst snd]. rewrite !has_LF_app, Hf, Hm. reflexivity.
Qed.

Lemma solid_keyLine (total : Z) (key : string) (n : Z) :
  has_LF key = false → solid (keyLine total (key, n)).
Proof.
  intros Hk. unfold keyLine. split; [discriminate|].
  cbn [fst snd]. rewrite !has_LF_app, Hk, !has_LF_fmt_d. reflexivity.
Qed.

Lemma plain_spec (r : KeyringResponse) (keys : gmap string Z) :
  plain r keys = true →
  has_LF (Datacenter r) = false ∧
  has_LF (Segment r) = false ∧
  (∀ from msg, Messages r !! from = Some msg →
     has_LF from = false ∧ has_LF msg = false) ∧
  (∀ key n, keys !! key = Some n → has_LF key = false).
Proof.
  unfold plain. rewrite !andb_true_iff, !negb_true_iff, !forallb_forall.
  intros [[[Hd Hs] Hm] Hk]. split; [exact Hd|]. split; [exact Hs|]. split.
  - intros from msg H.
    apply elem_of_map_to_list, list_elem_of_In, Hm in H. cbn [fst snd] in H.
    apply andb_true_iff in H as [Hf Hmsg].
    apply negb_true_iff in Hf, Hmsg. split; assumption.
  - intros key n H. apply elem_of_map_to_list, list_elem_of_In, Hk in H.
    apply negb_true_iff in H. exact H.
Qed.

Lemma solid_lines (ρ : MapRange) (r : KeyringResponse) (keys : gmap string Z) :
  range_ok ρ → plain r keys = true →
  Forall solid (messageLine <$> ρ _ (Messages r)) ∧
  Forall solid (keyLine (NumNodes r) <$> ρ _ keys).
Proof.
  intros Hρ Hp. apply plain_spec in Hp as (_ & _ & Hm & Hk).
  split; apply Forall_fmap, Forall_forall.
  - intros [from msg] Hin. apply range_lookup in Hin; [|exact Hρ].
    destruct (Hm from msg Hin). apply solid_messageLine; assumption.
  - intros [key n] Hin. apply range_lookup in Hin; [|exact Hρ].
    apply solid_keyLine. exact (Hk key n Hin).
Qed.

(** The block of a response whose fields hold no line feed: every line on a
    line of its own, and one more line feed when there is no key. *)
Lemma formatResponse_plain (ρ : MapRange) (r : KeyringResponse) (keys : gmap string Z) :
  range_ok ρ → plain r keys = true →
  formatResponse ρ r keys =
  unlines (header r :: (messageLine <$> ρ _ (Messages r)) ++
                       (keyLine (NumNodes r) <$> ρ _ keys)) +:+
  (if keyLine (NumNodes r) <$> ρ _ keys is [] then nl else "").
Proof.
  intros Hρ Hp. destruct (solid_lines ρ r keys Hρ Hp) as [Hm Hk].
  apply plain_spec in Hp as (Hd & Hs & _).
  destruct (solid_header r Hd Hs) as [Hne Hh].
  unfold formatResponse. rewrite assembled_eq.
  set (ms := messageLine <$> _) in *. set (ks := keyLine _ <$> _) in *.
  rewrite collapse_line by assumption.
  rewrite (collapse_section ms) by exact Hm.
  assert (Hkeys : strings_Replace (nl +:+ strings_Join ks nl) (nl +:+ nl) nl =
                  unlines ks +:+ (if ks is [] then nl else "")).
  { rewrite <- (app_empty_r (strings_Join ks nl)).
    rewrite (collapse_section ks "") by exact Hk.
    destruct ks; reflexivity. }
  cbn [unlines].
  destruct ms as [|m ms].
  - rewrite collapse_nl_nl, app_nil_l.
    destruct ks as [|k ks].
    + cbn [strings_Join unlines].
      rewrite collapse_empty, !app_assoc_s, !app_empty_l. reflexivity.
    + inversion Hk as [|? ? [Hkne Hkl] Hks]; subst.
      rewrite join_cons, collapse_plain_app by assumption.
      rewrite <- (app_empty_r (unlines ks)), collapse_unlines by assumption.
      cbn [unlines]. rewrite !app_assoc_s, !app_empty_r. reflexivity.
  - rewrite Hkeys. clear Hkeys. rewrite !app_assoc_s.
    assert (∀ a b c, unlines (a ++ b) +:+ c = unlines a +:+ unlines b +:+ c) as ->.
    { intros a b c. induction a as [|x a IH]; [reflexivity|].
      cbn [app unlines]. rewrite !app_assoc_s, IH. reflexivity. }
    reflexivity.
Qed.

Lemma formatResponse_plain_no_blank_line (ρ : MapRange) (r : KeyringResponse)
    (keys : gmap string Z) :
  range_ok ρ → plain r keys = true →
  has_blank_line (formatResponse ρ r keys) = false.
Proof.
  intros Hρ Hp. rewrite formatResponse_plain by assumption.
  destruct (solid_lines ρ r keys Hρ Hp) as [Hm Hk].
  apply plain_spec in Hp as (Hd & Hs & _).
  rewrite has_blank_line_unlines.
  - destruct (_ <$> ρ Z keys); reflexivity.
  - constructor; [apply solid_header; assumption|].
    apply Forall_app. split; assumption.
Qed.

(** Two loops over the same map visit the same entries. *)
Lemma range_perm {V} (ρ ρ' : MapRange) (m : gmap string V) :
  range_ok ρ → range_ok ρ' → ρ V m ≡ₚ ρ' V m.
Proof. intros H H'. rewrite (H V m), (H' V m). reflexivity. Qed.

Lemma range_small {V} (ρ ρ' : MapRange) (m : gmap string V) :
  range_ok ρ → range_ok ρ' → (size m ≤ 1)%nat → ρ V m = ρ' V m.
Proof.
  intros H H' Hsz. pose proof (range_perm ρ ρ' m H H') as Hp.
  assert (Hlen : (length (ρ V m) ≤ 1)%nat).
  { rewrite (H V m), length_map_to_list. exact Hsz. }
  destruct (ρ V m) as [|x [|y l]].
  - apply Permutation_nil_l in Hp. congruence.
  - apply Permutation_singleton_l in Hp. congruence.
  - cbn in Hlen. lia.
Qed.

Lemma range_sorted_ok : range_ok range_sorted.
Proof. intros V m. reflexivity. Qed.

Lemma range_reversed_ok : range_ok range_reversed.
Proof. intros V m. apply reverse_Permutation. Qed.

(** A message line without an empty line of its own stands in the block as it
    is. *)
Lemma formatResponse_contains_message (ρ : MapRange) (r : KeyringResponse)
    (keys : gmap string Z) (from msg : string) :
  range_ok ρ → Messages r !! from = Some msg →
  has_blank_line (messageLine (from, msg)) = false →
  contains (formatResponse ρ r keys) (messageLine (from, msg)).
Proof.
  intros Hρ Hin Hb. apply (range_lookup ρ) in Hin; [|exact Hρ].
  apply (list_elem_of_fmap_2 messageLine) in Hin.
  destruct (join_contains _ _ Hin) as (x & y & Hj).
  unfold formatResponse. rewrite assembled_eq, Hj.
  set (K := strings_Join (keyLine _ <$> _) nl).
  assert (nl +:+ header r +:+ nl +:+ (x +:+ messageLine (from, msg) +:+ y) +:+ nl +:+ K
          = (nl +:+ header r +:+ nl +:+ x) +:+ messageLine (from, msg) +:+
            (y +:+ nl +:+ K)) as ->.
  { rewrite !app_assoc_s. reflexivity. }
  apply collapse_contains; [reflexivity|discriminate|exact Hb].
Qed.

(** ** The block, piece by piece *)

Lemma range_nil {V} (ρ : MapRange) (m : gmap string V) :
  range_ok ρ → ρ V m = [] ↔ m = ∅.
Proof.
  intros H. rewrite <- map_to_list_empty_iff. pose proof (H V m) as Hp. split; intros E.
  - rewrite E in Hp. symmetry. apply Permutation_nil_l, Hp.
  - rewrite E in Hp. apply Permutation_nil_r, Hp.
Qed.

(** The decimal digits of an integer read back as the integer. *)
Lemma fmt_d_reads_back (n : Z) :
  Z.of_int <$> NilZero.int_of_string (fmt_d n) = Some n.
Proof.
  unfold fmt_d. rewrite NilZero.isi.
  - cbn. rewrite DecimalZ.of_to. reflexivity.
  - destruct n as [|p|p]; cbn; try discriminate.
    intros [= H]. exact (DecimalPos.Unsigned.to_uint_nonnil _ H).
  - destruct n as [|p|p]; cbn; try discriminate.
    intros [= H]. exact (DecimalPos.Unsigned.to_uint_nonnil _ H).
Qed.

Lemma begun_starts (l t : string) : begun l → starts_LF (l +:+ t) = false.
Proof. intros (c & rest & -> & Hc). exact Hc. Qed.

Lemma begun_messageLine (e : string * string) : begun (messageLine e).
Proof. eexists _, _. split; reflexivity. Qed.

Lemma begun_keyLine (total : Z) (e : string * Z) : begun (keyLine total e).
Proof. eexists _, _. split; reflexivity. Qed.

Lemma ends_LF_snoc (x : string) (c : ascii) : ends_LF (x +:+ String c "") = is_LF c.
Proof.
  induction x as [|a x IH]; [reflexivity|].
  rewrite app_cons. cbn [ends_LF]. rewrite IH.
  destruct (x +:+ String c "") eqn:E; [|reflexivity].
  destruct x; discriminate.
Qed.

Lemma ends_LF_keyLine (total : Z) (e : string * Z) : ends_LF (keyLine total e) = false.
Proof.
  unfold keyLine. rewrite <- !app_assoc_s. apply ends_LF_snoc.
Qed.

Lemma starts_LF_glue (ls : list string) (t : string) :
  Forall begun ls → starts_LF t = false →
  starts_LF (glue ((λ l, l +:+ nl) <$> ls) +:+ t) = false.
Proof.
  intros H Ht. destruct H as [|l ls Hl _]; [exact Ht|].
  cbn [fmap list_fmap glue]. rewrite !app_assoc_s. apply begun_starts, Hl.
Qed.

(** Lines that begin with another byte than a line feed, each followed by a
    line feed, are replaced one by one. *)
Lemma collapse_glue (ls : list string) (t : string) :
  Forall begun ls → starts_LF t = false →
  collapse (glue ((λ l, l +:+ nl) <$> ls) +:+ t) =
  glue ((λ l, collapse (l +:+ nl)) <$> ls) +:+ collapse t.
Proof.
  intros H Ht. induction H as [|l ls Hl Hls IH]; [reflexivity|].
  cbn [fmap list_fmap glue]. rewrite app_assoc_s, collapse_app.
  - change (list_fmap _ _ ?f ls) with (f <$> ls). rewrite IH, app_assoc_s.
    reflexivity.
  - apply andb_false_iff. right. apply starts_LF_glue; assumption.
Qed.

Lemma join_glue (l : string) (ls : list string) :
  strings_Join (l :: ls) nl +:+ nl = glue ((λ l, l +:+ nl) <$> l :: ls).
Proof.
  revert l. induction ls as [|l' ls IH]; intros l.
  - cbn. rewrite app_empty_r. reflexivity.
  - change (strings_Join (l :: l' :: ls) nl)
      with (l +:+ nl +:+ strings_Join (l' :: ls) nl).
    rewrite !app_assoc_s, IH. cbn [fmap list_fmap glue].
    rewrite !app_assoc_s. reflexivity.
Qed.

Lemma join_glue_ne (ls : list string) :
  ls ≠ [] → strings_Join ls nl +:+ nl = glue ((λ l, l +:+ nl) <$> ls).
Proof. destruct ls as [|l ls]; [congruence|]. intros _. apply join_glue. Qed.

(** Lines that neither begin nor end with a line feed are replaced one by
    one, and stay joined as they were. *)
Lemma collapse_join (ls : list string) :
  Forall (λ l, begun l ∧ ends_LF l = false) ls →
  collapse (strings_Join ls nl) = strings_Join ((λ l, collapse l) <$> ls) nl.
Proof.
  induction 1 as [|l ls [Hb He] Hls IH]; [reflexivity|].
  destruct ls as [|l' ls]; [reflexivity|].
  change (strings_Join (l :: l' :: ls) nl)
    with (l +:+ nl +:+ strings_Join (l' :: ls) nl).
  rewrite collapse_app by (rewrite He; reflexivity).
  rewrite collapse_nl.
  - rewrite IH. reflexivity.
  - rewrite join_cons. inversion Hls as [|? ? [Hb' _] _]; subst.
    apply begun_starts, Hb'.
Qed.

Lemma starts_LF_join (ls : list string) :
  Forall begun ls → starts_LF (strings_Join ls nl) = false.
Proof.
  intros H. destruct H as [|l ls Hl _]; [reflexivity|].
  rewrite join_cons. apply begun_starts, Hl.
Qed.

(** Every block, whatever the response holds: the header part, then the
    piece of each message, then the pieces of the keys joined by line
    feeds. *)
Lemma formatResponse_pieces (ρ : MapRange) (r : KeyringResponse)
    (keys : gmap string Z) :
  range_ok ρ →
  formatResponse ρ r keys =
  head_part r +:+
  glue (message_piece <$> ρ _ (Messages r)) +:+
  strings_Join (key_piece (NumNodes r) <$> ρ _ keys) nl.
Proof.
  intros Hρ. unfold formatResponse, head_part. rewrite assembled_eq.
  assert (HK : Forall (λ l, begun l ∧ ends_LF l = false)
                 (keyLine (NumNodes r) <$> ρ _ keys)).
  { apply Forall_fmap, Forall_forall. intros e _. split;
      [apply begun_keyLine|apply ends_LF_keyLine]. }
  assert (HK' : starts_LF (strings_Join (keyLine (NumNodes r) <$> ρ _ keys) nl) = false).
  { apply starts_LF_join. eapply Forall_impl; [exact HK|]. intros l [Hb _]. exact Hb. }
  assert (HM : Forall begun (messageLine <$> ρ _ (Messages r))).
  { apply Forall_fmap, Forall_forall. intros e _. apply begun_messageLine. }
  assert (Hkeys : collapse (strings_Join (keyLine (NumNodes r) <$> ρ _ keys) nl) =
                  strings_Join (key_piece (NumNodes r) <$> ρ _ keys) nl).
  { rewrite collapse_join by exact HK. rewrite <- list_fmap_compose. reflexivity. }
  set (K := strings_Join (keyLine _ <$> _) nl) in *.
  destruct (decide (Messages r = ∅)) as [He|Hne].
  - apply (range_nil ρ) in He; [|exact Hρ]. rewrite He. cbn [fmap list_fmap glue strings_Join].
    rewrite app_empty_l.
    assert (nl +:+ header r +:+ nl +:+ nl +:+ K
            = (nl +:+ header r +:+ nl +:+ nl) +:+ K) as ->.
    { rewrite !app_assoc_s. reflexivity. }
    rewrite collapse_app by (apply andb_false_iff; right; exact HK').
    rewrite Hkeys. reflexivity.
  - destruct (ρ string (Messages r)) as [|e es] eqn:E.
    { apply (range_nil ρ) in E; [contradiction|exact Hρ]. }
    assert (nl +:+ header r +:+ nl +:+
              strings_Join (messageLine <$> e :: es) nl +:+ nl +:+ K
            = (nl +:+ header r +:+ nl +:+ "") +:+
              (glue ((λ l, l +:+ nl) <$> (messageLine <$> e :: es)) +:+ K)) as ->.
    { rewrite <- join_glue_ne by discriminate.
      rewrite app_empty_r, !app_assoc_s. reflexivity. }
    rewrite collapse_app.
    + rewrite collapse_glue by assumption. rewrite Hkeys, <- list_fmap_compose.
      reflexivity.
    + apply andb_false_iff. right. apply starts_LF_glue; assumption.
Qed.

(** ** The validations of [Run] *)

(** C4. The relay policy accepts a relay factor [r] exactly when
    [0 ≤ r ≤ 5]; an invocation with any other factor, negative ones included,
    exits with 1 without building a client or calling a verb. *)
Theorem relay_factor_accepted_iff_in_range (r : Z) :
  (is_ok (ParseRelayFactor agent r) = true ↔ 0 ≤ r ≤ 5) ∧
  ∀ (w : World) (c : cmd), relay c = r → ¬ (0 ≤ r ≤ 5) →
    exit_code (Run agent w (Some c)) = 1 ∧ network (Run agent w (Some c)) = [].
Proof.
  assert (Hiff : is_ok (ParseRelayFactor agent r) = true ↔ 0 ≤ r ≤ 5).
  { cbn. destruct (Z.ltb_spec r 0), (Z.ltb_spec 5 r); cbn; split;
      intros; try discriminate; try lia; reflexivity. }
  split; [exact Hiff|].
  intros w c <- Hr. apply rejected_before_network. right; left.
  destruct (is_ok _); [tauto|reflexivity].
Qed.

Lemma relay_factor_accepted_iff_in_range_witness :
  exit_code (Run agent (world_answering []) (Some cmd_install_relay6)) = 1 ∧
  network (Run agent (world_answering []) (Some cmd_install_relay6)) = [].
Proof.
  apply (proj2 (relay_factor_accepted_iff_in_range 6)
           (world_answering []) cmd_install_relay6); [reflexivity|].
  cbn. lia.
Defined.

(** With the validators modelled above, the relay factor is refused outside
    [0, 5], and the local-only flag whenever the list flag is not set or a
    mutating argument is populated. *)
Corollary invalid_options_of_agent (w : World) (c : cmd) :
  selection c ≠ ([], inl true) ∨
  ¬ (0 ≤ relay c ≤ 5) ∨
  (local c = true ∧ (listKeys c = false ∨ mutating c = true)) →
  exit_code (Run agent w (Some c)) = 1 ∧ network (Run agent w (Some c)) = [].
Proof.
  intros H. apply rejected_before_network.
  destruct (selection_outcomes c) as [Hs|[[Hs _]|[Hs _]]];
    [|left; rewrite Hs; discriminate..].
  right. destruct H as [H|[H|[Hl H]]]; [contradiction| |].
  - left. cbn. destruct (Z.ltb_spec (relay c) 0), (Z.ltb_spec 5 (relay c));
      cbn; try reflexivity; lia.
  - right. cbn. rewrite Hl.
    assert (listKeys c = false) as ->; [|cbn; discriminate].
    destruct H as [H|H]; [exact H|].
    apply selection_passes_iff in Hs as [Hs|(_ & _ & Hs)]; [|congruence].
    unfold populated, mutating in *.
    destruct (listKeys c), (listPrimaryKeys c), (nonempty (installKey c)),
      (nonempty (useKey c)), (nonempty (removeKey c));
      cbn in *; try reflexivity; try discriminate; lia.
Qed.

(** C5.  Whatever the two validators of package [agent] are: an invocation
    whose single-action check fails, whose relay factor is refused or whose
    local-only flag is refused exits with 1 from one of the four returns that
    precede the construction of the client; all it has done is to report one
    error, and neither is a client built nor a verb called. *)
Theorem invalid_options_never_reach_network (ag : Agent) (w : World) (c : cmd) :
  selection c ≠ ([], inl true) ∨
  is_ok (ParseRelayFactor ag (relay c)) = false ∨
  ValidateLocalOnly ag (local c) (listKeys c) ≠ None →
  exit_code (Run ag w (Some c)) = 1 ∧
  network (Run ag w (Some c)) = [] ∧
  (∃ msg, events (Run ag w (Some c)) = [UI_Error msg]) ∧
  validation_site (site (Run ag w (Some c))) = true.
Proof.
  intros H. split; [|split]; [apply rejected_before_network, H..|].
  unfold events, site, returned. cbn [Run]. rewrite run_parsed_unfold.
  destruct (selection_outcomes c) as [Hs|[[Hs _]|[Hs _]]]; rewrite Hs.
  - destruct H as [H|H]; [congruence|]. unfold validated.
    destruct (ParseRelayFactor ag (relay c)) as [n|e].
    + destruct (ValidateLocalOnly ag (local c) (listKeys c)) as [e|].
      * split; [eexists; reflexivity|reflexivity].
      * destruct H as [H|H]; [discriminate|congruence].
    + split; [eexists; reflexivity|reflexivity].
  - split; [eexists; reflexivity|reflexivity].
  - split; [eexists; reflexivity|reflexivity].
Qed.

Lemma invalid_options_never_reach_network_witness :
  exit_code (Run agent (world_answering []) (Some cmd_install_local)) = 1 ∧
  network (Run agent (world_answering []) (Some cmd_install_local)) = [] ∧
  (∃ msg, events (Run agent (world_answering []) (Some cmd_install_local))
          = [UI_Error msg]) ∧
  validation_site (site (Run agent (world_answering []) (Some cmd_install_local)))
    = true.
Proof.
  apply (invalid_options_never_reach_network agent (world_answering [])
           cmd_install_local).
  right; right. discriminate.
Defined.

(** C2, at the failing input [-list-primary -local-only].  The validation is
    given [c.listKeys] alone: whatever validator package [agent] provides, it
    is handed the same arguments for [-list-primary -local-only] and for
    [-install=k1 -local-only], so it cannot accept the first and turn down the
    second; the validator modelled above turns the list-primary invocation
    down before any dispatch. *)
Theorem list_primary_local_only_rejected (ag : Agent) (w : World) :
  (site (Run ag w (Some cmd_list_primary_local)) = at_local_only ↔
   site (Run ag w (Some cmd_install_local)) = at_local_only) ∧
  Run agent w (Some cmd_list_primary_local) =
    ([UI_Error "Error validating local-only: InvalidScope"],
     inr (at_local_only, 1)).
Proof.
  split; [|cbn [Run]; rewrite run_parsed_unfold; reflexivity].
  unfold site, returned. cbn [Run]. rewrite !run_parsed_unfold.
  cbn [selection cmd_list_primary_local cmd_install_local flags single_action].
  unfold validated, dispatch. cbn -[formatResponse imap].
  destruct (ParseRelayFactor ag 0); [|reflexivity].
  destruct (ValidateLocalOnly ag true false); [reflexivity|].
  destruct (APIClient w) as [cl|]; [|reflexivity].
  cbn -[formatResponse imap].
  destruct (KeyringList cl _), (KeyringInstall cl _ _); cbn; split; discriminate.
Qed.

(** C3, at the failing input [-list -list-primary]: two command arguments are
    populated, yet the single-action check passes, a client is built and, when
    that succeeds, the list verb is called. *)
Theorem list_with_list_primary_dispatches (w : World) :
  populated cmd_list_both = 2%nat ∧
  selection cmd_list_both = ([], inl true) ∧
  ∃ rest, network (Run agent w (Some cmd_list_both)) = New_APIClient :: rest ∧
    (is_ok (APIClient w) = true →
     rest = [Call_KeyringList {| q_RelayFactor := 0; q_LocalOnly := false |}]).
Proof.
  split; [reflexivity|]. split; [reflexivity|].
  unfold network, events. cbn [Run]. rewrite run_parsed_unfold.
  cbn [selection cmd_list_both flags single_action]. unfold validated, dispatch.
  cbn -[formatResponse imap].
  destruct (APIClient w) as [cl|e]; cbn -[formatResponse imap].
  - destruct (KeyringList cl _) as [rs|e]; cbn -[formatResponse imap].
    + eexists. split; [reflexivity|]. intros _. f_equal.
      induction rs as [|x rs IH] using rev_ind; [reflexivity|].
      rewrite imap_app, List.filter_app. cbn. rewrite app_nil_r. exact IH.
    + eexists. split; [reflexivity|]. reflexivity.
  - eexists. split; [reflexivity|]. discriminate.
Qed.

(** ** The branches of [Run] *)

(** C1, as stated, fails: a list invocation whose call succeeds and returns a
    pool with a message from one of its nodes exits with 0. *)
Lemma node_message_exits_0 :
  Messages pool_dc1 !! "node2" = Some "cannot remove primary key" ∧
  KeyringList (client_answering [pool_dc1; pool_wan])
    {| q_RelayFactor := 0; q_LocalOnly := false |} = Ok [pool_dc1; pool_wan] ∧
  exit_code (Run agent (world_answering [pool_dc1; pool_wan]) (Some cmd_list)) = 0.
Proof. repeat split. Qed.

(** C1, amended.  For a read command that passes the validations and gets its
    client, the exit code is that of the call alone: 1 when the call fails, 0
    when it succeeds, whatever messages the responses carry.  In the latter
    case one block per response is written, in the order of the responses, and
    every message of a node whose line holds no two line feeds in a row stands
    in the block of its pool as it is. *)
Theorem read_exit_code_and_report (ag : Agent) (w : World) (c : cmd) (n : Z)
    (client : Operator) :
  listKeys c = true ∨ listPrimaryKeys c = true →
  selection c = ([], inl true) →
  ParseRelayFactor ag (relay c) = Ok n →
  ValidateLocalOnly ag (local c) (listKeys c) = None →
  APIClient w = Ok client →
  (∀ i, range_ok (map_order w i)) →
  match KeyringList client {| q_RelayFactor := n; q_LocalOnly := local c |} with
  | Err _ => exit_code (Run ag w (Some c)) = 1
  | Ok rs =>
      exit_code (Run ag w (Some c)) = 0 ∧
      outputs (Run ag w (Some c)) =
        imap (λ i r, formatResponse (map_order w i) r
                       (if listKeys c then Keys r else PrimaryKeys r)) rs ∧
      ∀ i r from msg,
        rs !! i = Some r → Messages r !! from = Some msg →
        has_blank_line (messageLine (from, msg)) = false →
        ∃ block, outputs (Run ag w (Some c)) !! i = Some block ∧
                 contains block (messageLine (from, msg))
  end.
Proof.
  intros Hread Hs Hp Hv Hc Hρ.
  rewrite (run_dispatches ag w c n client Hs Hp Hv Hc).
  pose proof (dispatch_read w client n c Hread) as Hd. cbn zeta in Hd.
  destruct (KeyringList client _) as [rs|e].
  - destruct Hd as (info & s & -> & _). unfold exit_code, returned, outputs, events.
    cbn [fst snd omap list_omap].
    destruct (output_events
                (λ i r, formatResponse (map_order w i) r
                          (if listKeys c then Keys r else PrimaryKeys r)) rs)
      as (Hout & _ & _).
    split; [reflexivity|]. split; [exact Hout|].
    intros i r from msg Hi Hm Hb. rewrite Hout.
    eexists. split.
    + rewrite list_lookup_imap, Hi. reflexivity.
    + apply formatResponse_contains_message; [apply Hρ|assumption..].
  - destruct Hd as (info & s & ->). reflexivity.
Qed.

Lemma read_exit_code_and_report_witness :
  exit_code (Run agent (world_answering [pool_dc1; pool_wan]) (Some cmd_list)) = 0 ∧
  ∃ block,
    outputs (Run agent (world_answering [pool_dc1; pool_wan]) (Some cmd_list)) !! 0%nat
      = Some block ∧
    contains block (messageLine ("node2", "cannot remove primary key")).
Proof.
  pose proof (read_exit_code_and_report agent
                (world_answering [pool_dc1; pool_wan]) cmd_list 0
                (client_answering [pool_dc1; pool_wan])
                (or_introl eq_refl) eq_refl eq_refl eq_refl eq_refl
                (λ _, range_sorted_ok)) as H.
  cbn [KeyringList client_answering] in H. destruct H as (H0 & _ & H).
  split; [exact H0|].
  apply (H 0%nat pool_dc1 "node2" "cannot remove primary key"); reflexivity.
Defined.

(** C6, as stated, fails: the client has one list verb, and a list-primary
    invocation calls it exactly as a list invocation does; the responses it
    gets carry the counts of all keys next to those of the primary keys. *)
Lemma list_primary_calls_list_verb :
  network (Run agent (world_answering [pool_two]) (Some cmd_list_primary)) =
    [New_APIClient; Call_KeyringList {| q_RelayFactor := 0; q_LocalOnly := false |}] ∧
  network (Run agent (world_answering [pool_two]) (Some cmd_list)) =
    [New_APIClient; Call_KeyringList {| q_RelayFactor := 0; q_LocalOnly := false |}] ∧
  Keys pool_two ≠ PrimaryKeys pool_two.
Proof.
  split; [reflexivity|]. split; [reflexivity|].
  intros H. apply (f_equal size) in H. vm_compute in H. discriminate.
Qed.

(** C6, amended.  A list-primary invocation (without the list flag) that
    passes the validations and gets its client calls [KeyringList], the one
    list verb of the client, once, with the relay factor and the local-only
    flag as query options; when the call succeeds, the key lines of the block
    of each response are those of its [PrimaryKeys]. *)
Theorem list_primary_dispatch (ag : Agent) (w : World) (c : cmd) (n : Z)
    (client : Operator) :
  listKeys c = false → listPrimaryKeys c = true →
  selection c = ([], inl true) →
  ParseRelayFactor ag (relay c) = Ok n →
  ValidateLocalOnly ag (local c) (listKeys c) = None →
  APIClient w = Ok client →
  network (Run ag w (Some c)) =
    [New_APIClient; Call_KeyringList {| q_RelayFactor := n; q_LocalOnly := local c |}] ∧
  match KeyringList client {| q_RelayFactor := n; q_LocalOnly := local c |} with
  | Err _ => outputs (Run ag w (Some c)) = []
  | Ok rs =>
      outputs (Run ag w (Some c)) =
        imap (λ i r, formatResponse (map_order w i) r (PrimaryKeys r)) rs
  end.
Proof.
  intros Hl Hlp Hs Hp Hv Hc.
  rewrite (run_dispatches ag w c n client Hs Hp Hv Hc).
  pose proof (dispatch_read w client n c (or_intror Hlp)) as Hd. cbn zeta in Hd.
  rewrite Hl in Hd. unfold network, outputs, events.
  destruct (KeyringList client _) as [rs|e].
  - destruct Hd as (info & s & -> & _).
    destruct (output_events
                (λ i r, formatResponse (map_order w i) r (PrimaryKeys r)) rs)
      as (Hout & Hnet & _).
    cbn [fst snd omap list_omap List.filter is_network]. rewrite Hnet.
    split; [reflexivity|exact Hout].
  - destruct Hd as (info & s & ->). split; reflexivity.
Qed.

Lemma list_primary_dispatch_witness :
  network (Run agent (world_answering [pool_two]) (Some cmd_list_primary)) =
    [New_APIClient; Call_KeyringList {| q_RelayFactor := 0; q_LocalOnly := false |}] ∧
  outputs (Run agent (world_answering [pool_two]) (Some cmd_list_primary)) =
    [formatResponse range_sorted pool_two (PrimaryKeys pool_two)].
Proof.
  exact (list_primary_dispatch agent (world_answering [pool_two]) cmd_list_primary 0
           (client_answering [pool_two]) eq_refl eq_refl eq_refl eq_refl eq_refl
           eq_refl).
Defined.

(** C10, as stated, fails: [-install=k1 -relay-factor=6] passes the
    single-action check, and no branch is entered. *)
Lemma validation_returns_before_branches :
  selection cmd_install_relay6 = ([], inl true) ∧
  branches_entered (Run agent (world_answering []) (Some cmd_install_relay6)) = 0%nat ∧
  site (Run agent (world_answering []) (Some cmd_install_relay6)) = at_relay_factor.
Proof. repeat split. Qed.

(** C10, amended.  An invocation that passes flag parsing and the single-action
    check never reaches the trailing [return]; when it also passes the two
    validations and gets its client, exactly one of the five branches is
    entered and [Run] returns from it. *)
Theorem trailing_return_unreachable (ag : Agent) (w : World) (c : cmd) :
  selection c = ([], inl true) →
  site (Run ag w (Some c)) ≠ at_end ∧
  (is_ok (ParseRelayFactor ag (relay c)) = true →
   ValidateLocalOnly ag (local c) (listKeys c) = None →
   is_ok (APIClient w) = true →
   branches_entered (Run ag w (Some c)) = 1%nat ∧
   branch_site (site (Run ag w (Some c))) = true).
Proof.
  intros Hs. pose proof (selection_populated c Hs) as Hpop.
  destruct (ParseRelayFactor ag (relay c)) as [n|e] eqn:Hp;
    [destruct (ValidateLocalOnly ag (local c) (listKeys c)) as [e|] eqn:Hv;
     [|destruct (APIClient w) as [client|e] eqn:Hc]|].
  - split; [|discriminate]. unfold site, returned. cbn [Run].
    rewrite run_parsed_unfold, Hs. unfold validated. rewrite Hp, Hv. discriminate.
  - rewrite (run_dispatches ag w c n client Hs Hp Hv Hc).
    destruct (dispatch_one_branch w client n c Hpop) as [H1 Hb].
    unfold site, returned, branches_entered, events. cbn [fst snd List.filter is_info].
    split; [|intros _ _ _; split; assumption].
    intros Hend. rewrite Hend in Hb. discriminate.
  - split; [|discriminate]. unfold site, returned. cbn [Run].
    rewrite run_parsed_unfold, Hs. unfold validated. rewrite Hp, Hv, Hc. discriminate.
  - split; [|discriminate]. unfold site, returned. cbn [Run].
    rewrite run_parsed_unfold, Hs. unfold validated. rewrite Hp. discriminate.
Qed.

Lemma trailing_return_unreachable_witness :
  site (Run agent (world_answering []) (Some cmd_remove)) ≠ at_end ∧
  branches_entered (Run agent (world_answering []) (Some cmd_remove)) = 1%nat ∧
  branch_site (site (Run agent (world_answering []) (Some cmd_remove))) = true.
Proof.
  destruct (trailing_return_unreachable agent (world_answering []) cmd_remove eq_refl)
    as [H0 H1].
  split; [exact H0|]. exact (H1 eq_refl eq_refl eq_refl).
Defined.

(** ** The report formatter *)

(** C7, as stated, fails: the same response is rendered in two ways by two
    loops that visit its maps in different orders. *)
Lemma rendering_depends_on_map_order :
  range_ok range_sorted ∧ range_ok range_reversed ∧
  formatResponse range_sorted pool_two (Keys pool_two) ≠
  formatResponse range_reversed pool_two (Keys pool_two).
Proof.
  split; [exact range_sorted_ok|]. split; [exact range_reversed_ok|].
  vm_compute. discriminate.
Qed.

(** C7, amended.  Two renderings of the same response are made of the same
    pieces: the same header part, then the pieces of the same messages, then
    the pieces of the same keys joined by line feeds, each section up to the
    order of its pieces, a piece being what the replacement makes of a line.
    When no field holds a line feed, the two renderings are the header line
    followed by the same message lines and the same key lines, each section up
    to the order of its lines.  The two renderings are the same text when the
    response has at most one message and at most one key. *)
Theorem rendering_up_to_map_order (ρ ρ' : MapRange) (r : KeyringResponse)
    (keys : gmap string Z) :
  range_ok ρ → range_ok ρ' →
  (formatResponse ρ r keys =
     head_part r +:+ glue (message_piece <$> ρ _ (Messages r)) +:+
     strings_Join (key_piece (NumNodes r) <$> ρ _ keys) nl ∧
   formatResponse ρ' r keys =
     head_part r +:+ glue (message_piece <$> ρ' _ (Messages r)) +:+
     strings_Join (key_piece (NumNodes r) <$> ρ' _ keys) nl ∧
   (message_piece <$> ρ _ (Messages r)) ≡ₚ (message_piece <$> ρ' _ (Messages r)) ∧
   (key_piece (NumNodes r) <$> ρ _ keys) ≡ₚ (key_piece (NumNodes r) <$> ρ' _ keys)) ∧
  (plain r keys = true →
   formatResponse ρ r keys =
     unlines (header r :: (messageLine <$> ρ _ (Messages r)) ++
                          (keyLine (NumNodes r) <$> ρ _ keys)) +:+
     (if decide (keys = ∅) then nl else "") ∧
   formatResponse ρ' r keys =
     unlines (header r :: (messageLine <$> ρ' _ (Messages r)) ++
                          (keyLine (NumNodes r) <$> ρ' _ keys)) +:+
     (if decide (keys = ∅) then nl else "") ∧
   (messageLine <$> ρ _ (Messages r)) ≡ₚ (messageLine <$> ρ' _ (Messages r)) ∧
   (keyLine (NumNodes r) <$> ρ _ keys) ≡ₚ (keyLine (NumNodes r) <$> ρ' _ keys)) ∧
  ((size (Messages r) ≤ 1)%nat → (size keys ≤ 1)%nat →
   formatResponse ρ r keys = formatResponse ρ' r keys).
Proof.
  intros H H'.
  assert (Htail : ∀ ρ0 : MapRange, range_ok ρ0 →
            (if keyLine (NumNodes r) <$> ρ0 _ keys is [] then nl else "") =
            (if decide (keys = ∅) then nl else "")).
  { intros ρ0 H0. destruct (decide (keys = ∅)) as [He|Hne].
    - apply (range_nil ρ0) in He; [|exact H0]. rewrite He. reflexivity.
    - destruct (ρ0 Z keys) as [|e l] eqn:E; [|reflexivity].
      apply (range_nil ρ0) in E; [contradiction|exact H0]. }
  split; [|split].
  - split; [apply formatResponse_pieces, H|].
    split; [apply formatResponse_pieces, H'|].
    split; apply fmap_Permutation, range_perm; assumption.
  - intros Hp. split; [|split].
    + rewrite <- (Htail ρ H). apply formatResponse_plain; assumption.
    + rewrite <- (Htail ρ' H'). apply formatResponse_plain; assumption.
    + split; apply fmap_Permutation, range_perm; assumption.
  - intros Hm Hk. unfold formatResponse, assembled, formatMessages, formatKeys.
    rewrite (range_small ρ ρ' (Messages r)), (range_small ρ ρ' keys) by assumption.
    reflexivity.
Qed.

Lemma rendering_up_to_map_order_witness :
  formatResponse range_sorted pool_dc1 (Keys pool_dc1) =
    formatResponse range_reversed pool_dc1 (Keys pool_dc1) ∧
  formatResponse range_sorted pool_two (Keys pool_two) =
    unlines [ "dc1 (LAN) [alpha]:"; "  ===> node1: ok"; "  ===> node2: late";
              "  abc123 [2/2]"; "  def456 [1/2]" ] ∧
  formatResponse range_reversed pool_two (Keys pool_two) =
    unlines [ "dc1 (LAN) [alpha]:"; "  ===> node2: late"; "  ===> node1: ok";
              "  def456 [1/2]"; "  abc123 [2/2]" ].
Proof.
  split.
  - apply (rendering_up_to_map_order range_sorted range_reversed pool_dc1
             (Keys pool_dc1) range_sorted_ok range_reversed_ok).
    + vm_compute. lia.
    + vm_compute. lia.
  - destruct (proj1 (proj2 (rendering_up_to_map_order range_sorted range_reversed
                              pool_two (Keys pool_two)
                              range_sorted_ok range_reversed_ok)) eq_refl)
      as (H1 & H2 & _).
    split.
    + rewrite H1. reflexivity.
    + rewrite H2. reflexivity.
Defined.

(** C8, as stated, fails: a message that holds an empty line does not stand in
    the block in the format [from: message]; the replacement takes one of its
    line feeds away. *)
Lemma message_line_broken_by_replacement :
  range_ok range_sorted ∧
  Messages pool_split !! "node1" = Some ("x" +:+ nl +:+ nl +:+ "y") ∧
  formatResponse range_sorted pool_split (Keys pool_split) =
    nl +:+ "dc1 (LAN):" +:+ nl +:+ "  ===> node1: x" +:+ nl +:+ "y" +:+ nl +:+
    "  abc123 [1/1]" ∧
  occurs ("node1: x" +:+ nl +:+ nl +:+ "y")
    (formatResponse range_sorted pool_split (Keys pool_split)) = false.
Proof. split; [exact range_sorted_ok|]. repeat split. Qed.

(** C8, amended.  For a response whose site, segment, node names, messages and
    keys hold no line feed, the block is a line feed, the header line - the
    pool named [<site> (LAN)] or [WAN], then [ [<segment>]] when there is a
    segment, then a colon -, one line [  ===> <from>: <message>] per message
    of a node, and one line [  <key> [<count>/<total>]] per key, count and
    total in decimal, each line on a line of its own, with one more line feed
    when there is no key.  For any response the block is made of the same
    pieces in the same order, as the replacement of double line feeds leaves
    them: the header part, each message line with the line feed after it, and
    the key lines joined by line feeds. *)
Theorem block_layout (ρ : MapRange) (r : KeyringResponse) (keys : gmap string Z) :
  range_ok ρ →
  let mline := λ e : string * string, "  ===> " +:+ e.1 +:+ ": " +:+ e.2 in
  let kline := λ e : string * Z,
    "  " +:+ e.1 +:+ " [" +:+ fmt_d e.2 +:+ "/" +:+ fmt_d (NumNodes r) +:+ "]" in
  ρ _ (Messages r) ≡ₚ map_to_list (Messages r) ∧
  ρ _ keys ≡ₚ map_to_list keys ∧
  (∀ n : Z, Z.of_int <$> NilZero.int_of_string (fmt_d n) = Some n) ∧
  formatResponse ρ r keys =
    strings_Replace
      (nl +:+ header r +:+ nl +:+ (if decide (Messages r = ∅) then nl else ""))
      (nl +:+ nl) nl +:+
    glue ((λ e, strings_Replace (mline e +:+ nl) (nl +:+ nl) nl)
            <$> ρ _ (Messages r)) +:+
    strings_Join ((λ e, strings_Replace (kline e) (nl +:+ nl) nl) <$> ρ _ keys) nl ∧
  (plain r keys = true →
   formatResponse ρ r keys =
     unlines (header r :: (mline <$> ρ _ (Messages r)) ++ (kline <$> ρ _ keys)) +:+
     (if ρ _ keys is [] then nl else "")).
Proof.
  intros Hρ mline kline.
  split; [apply Hρ|]. split; [apply Hρ|]. split; [exact fmt_d_reads_back|]. split.
  - exact (formatResponse_pieces ρ r keys Hρ).
  - intros Hp. rewrite formatResponse_plain by assumption.
    fold (keyLine (NumNodes r)) in kline. subst kline.
    destruct (ρ Z keys); reflexivity.
Qed.

Lemma block_layout_witness :
  formatResponse range_reversed pool_two (Keys pool_two) =
    nl +:+ "dc1 (LAN) [alpha]:" +:+
    nl +:+ "  ===> node2: late" +:+
    nl +:+ "  ===> node1: ok" +:+
    nl +:+ "  def456 [1/2]" +:+
    nl +:+ "  abc123 [2/2]".
Proof.
  destruct (block_layout range_reversed pool_two (Keys pool_two) range_reversed_ok)
    as (_ & _ & _ & _ & Hplain).
  rewrite (Hplain eq_refl). reflexivity.
Defined.

(** C9, as stated, fails: a message with five line feeds in a row leaves three
    of them, two empty lines in a row, in the block. *)
Lemma blank_lines_not_collapsed :
  range_ok range_sorted ∧
  has_two_blank_lines (assembled range_sorted pool_blank (Keys pool_blank)) = true ∧
  has_two_blank_lines (formatResponse range_sorted pool_blank (Keys pool_blank)) = true.
Proof. split; [exact range_sorted_ok|]. split; vm_compute; reflexivity. Qed.

(** C9, amended.  For a response whose site, segment, node names, messages
    and keys hold no line feed, the block has no empty line: an empty message
    section or key section leaves none, the block being the header line and
    the lines of the two sections, each on a line of its own (and ending in a
    line feed when there is no key).  For any response, a run of [k] line
    feeds of the assembled text is left as a run of [⌈k/2⌉] in the block. *)
Theorem blank_sections_omitted (ρ : MapRange) (r : KeyringResponse)
    (keys : gmap string Z) :
  range_ok ρ →
  (plain r keys = true →
   has_blank_line (formatResponse ρ r keys) = false ∧
   formatResponse ρ r keys =
     unlines (header r :: (messageLine <$> ρ _ (Messages r)) ++
                          (keyLine (NumNodes r) <$> ρ _ keys)) +:+
     (if decide (keys = ∅) then nl else "")) ∧
  (∀ (x y : string) (k : nat),
     assembled ρ r keys = x +:+ LFs k +:+ y →
     ends_LF x = false → starts_LF y = false →
     formatResponse ρ r keys =
       strings_Replace x (nl +:+ nl) nl +:+ LFs (Nat.div2 (S k)) +:+
       strings_Replace y (nl +:+ nl) nl).
Proof.
  intros Hρ. split.
  - intros Hp. split; [apply formatResponse_plain_no_blank_line; assumption|].
    rewrite formatResponse_plain by assumption. f_equal.
    pose proof (Hρ Z keys) as Hperm. destruct (decide (keys = ∅)) as [->|Hne].
    + rewrite map_to_list_empty in Hperm. apply Permutation_nil_r in Hperm.
      rewrite Hperm. reflexivity.
    + destruct (ρ Z keys) as [|e l]; [|reflexivity].
      symmetry in Hperm. apply Permutation_nil_r in Hperm.
      apply map_to_list_empty_iff in Hperm. contradiction.
  - intros x y k Heq Hx Hy. unfold formatResponse. rewrite Heq.
    rewrite collapse_app by (rewrite Hx; reflexivity).
    rewrite collapse_run by exact Hy. reflexivity.
Qed.

Lemma blank_sections_omitted_witness :
  has_blank_line (formatResponse range_sorted pool_wan (Keys pool_wan)) = false ∧
  formatResponse range_sorted pool_wan (Keys pool_wan) =
    strings_Replace (nl +:+ "WAN:") (nl +:+ nl) nl +:+ LFs (Nat.div2 3) +:+
    strings_Replace "  abc123 [5/5]" (nl +:+ nl) nl.
Proof.
  destruct (blank_sections_omitted range_sorted pool_wan (Keys pool_wan)
              range_sorted_ok) as [H1 H2].
  split.
  - exact (proj1 (H1 eq_refl)).
  - exact (H2 (nl +:+ "WAN:") "  abc123 [5/5]" 2%nat eq_refl eq_refl eq_refl).
Defined.

(** ** More on [Run] *)

(** X1.  The loop that accepts a single action, for any starting value of
    [found] and any list of arguments: with [k] the number of non-empty
    arguments, plus one when [found] starts true, the loop reports
    "Only a single action is allowed" and returns 1 when [k] is at least 2,
    and otherwise logs nothing and leaves [found] true exactly when [k] is
    1. *)
Theorem single_action_counts (found : bool) (args : list string) :
  single_action found args =
  if (Nat.b2n found + populated_among args <=? 1)%nat
  then ([], inl (Nat.b2n found + populated_among args =? 1)%nat)
  else ([UI_Error "Only a single action is allowed"], inr (at_multiple_actions, 1)).
Proof.
  revert found. induction args as [|arg args IH]; intros found.
  - destruct found; reflexivity.
  - cbn [single_action]. unfold populated_among in *. cbn [List.filter].
    destruct found, (0 <? String.length arg)%nat eqn:Harg;
      cbn [andb orb]; unfold mbind, M_bind; cbn -[Nat.leb Nat.eqb].
    + destruct (_ <=? 1)%nat eqn:Hle; [|reflexivity].
      apply Nat.leb_le in Hle. cbn in Hle. lia.
    + rewrite (IH true). cbn [length Nat.b2n]. destruct (_ <=? 1)%nat; reflexivity.
    + rewrite (IH true). cbn [length Nat.b2n Nat.add].
      destruct (_ <=? 1)%nat; reflexivity.
    + rewrite (IH false). cbn [length Nat.b2n]. destruct (_ <=? 1)%nat; reflexivity.
Qed.

(** The cascade, once entered: one announcement, one call, and then either
    blocks only and the code 0, or one error and the code 1. *)
Lemma dispatch_shape (w : World) (client : Operator) (n : Z) (c : cmd) :
  populated c ≠ 0%nat →
  ∃ info call tail,
    (dispatch w client n c).1 = UI_Info info :: call :: tail ∧
    is_call call = true ∧
    ((dispatch w client n c).2.2 = 0 ∧
     List.filter is_error tail = [] ∧ List.filter is_network tail = [] ∨
     (dispatch w client n c).2.2 = 1 ∧ ∃ msg, tail = [UI_Error msg]).
Proof.
  assert (Hout : ∀ (f : nat → KeyringResponse → string) rs,
             List.filter is_error (imap (λ i r, UI_Output (f i r)) rs) = [] ∧
             List.filter is_network (imap (λ i r, UI_Output (f i r)) rs) = []).
  { intros f rs. revert f. induction rs as [|x rs IH]; intros f; [split; reflexivity|].
    cbn. apply IH. }
  destruct c as [ik uk rk lk lpk r l h]. unfold dispatch, populated.
  cbn [installKey useKey removeKey listKeys listPrimaryKeys local].
  destruct lk, lpk, ik as [|a1 ik], uk as [|a2 uk], rk as [|a3 rk];
    cbn -[formatResponse imap]; intros Hp; try (exfalso; apply Hp; reflexivity);
    repeat match goal with
    | |- context [match ?x with _ => _ end] => destruct x
    end; cbn -[formatResponse imap];
    eexists _, _, _; (split; [reflexivity|]); (split; [reflexivity|]);
    first [ left; split; [reflexivity|]; first [apply Hout | split; reflexivity]
          | right; split; [reflexivity|]; eexists; reflexivity ].
Qed.

(** X2.  Whatever the flags, the validators and the client: an invocation
    builds at most one client and calls at most one verb, and a verb is called
    only after the client was built. *)
Theorem at_most_one_call (ag : Agent) (w : World) (c : cmd) :
  network (Run ag w (Some c)) = [] ∨
  network (Run ag w (Some c)) = [New_APIClient] ∨
  ∃ call, is_call call = true ∧ network (Run ag w (Some c)) = [New_APIClient; call].
Proof.
  unfold network, events. cbn [Run]. rewrite run_parsed_unfold.
  destruct (selection_outcomes c) as [Hs|[[Hs _]|[Hs _]]]; rewrite Hs;
    [|left; reflexivity..].
  pose proof (selection_populated c Hs) as Hpop. unfold validated.
  destruct (ParseRelayFactor ag (relay c)) as [n|e]; [|left; reflexivity].
  destruct (ValidateLocalOnly ag (local c) (listKeys c)) as [e|]; [left; reflexivity|].
  destruct (APIClient w) as [client|e]; [|right; left; reflexivity].
  destruct (dispatch_shape w client n c Hpop) as (info & call & tail & Hd & Hc & Ht).
  right; right. exists call. split; [exact Hc|].
  cbn [fst snd app]. rewrite Hd. cbn [List.filter is_network].
  destruct call; try discriminate; cbn [is_network];
    (destruct Ht as [(_ & _ & ->)|(_ & msg & ->)]; reflexivity).
Qed.

(** X3.  The exit code and the errors reported go together.  An invocation
    exits with 0 or with 1.  When it exits with 0 it has reported no error and
    has called exactly one verb; when it exits with 1 it has reported exactly
    one error, and that was the last thing it did. *)
Theorem exit_code_and_errors (ag : Agent) (w : World) (c : cmd) :
  exit_code (Run ag w (Some c)) = 0 ∧
    errors (Run ag w (Some c)) = [] ∧
    (∃ call, is_call call = true ∧
             network (Run ag w (Some c)) = [New_APIClient; call]) ∨
  exit_code (Run ag w (Some c)) = 1 ∧
    ∃ msg, errors (Run ag w (Some c)) = [UI_Error msg] ∧
           last (events (Run ag w (Some c))) = Some (UI_Error msg).
Proof.
  unfold exit_code, returned, errors, network, events. cbn [Run].
  rewrite run_parsed_unfold.
  destruct (selection_outcomes c) as [Hs|[[Hs _]|[Hs _]]]; rewrite Hs;
    [|right; split; [reflexivity|eexists; split; reflexivity]..].
  pose proof (selection_populated c Hs) as Hpop. unfold validated.
  destruct (ParseRelayFactor ag (relay c)) as [n|e];
    [|right; split; [reflexivity|eexists; split; reflexivity]].
  destruct (ValidateLocalOnly ag (local c) (listKeys c)) as [e|];
    [right; split; [reflexivity|eexists; split; reflexivity]|].
  destruct (APIClient w) as [client|e];
    [|right; split; [reflexivity|eexists; split; reflexivity]].
  destruct (dispatch_shape w client n c Hpop) as (info & call & tail & Hd & Hc & Ht).
  cbn [fst snd app]. rewrite Hd.
  destruct Ht as [(H0 & He & Hn)|(H1 & msg & ->)].
  - left. split; [exact H0|]. split.
    + cbn [List.filter is_error]. destruct call; try discriminate; exact He.
    + exists call. split; [exact Hc|]. cbn [List.filter is_network].
      destruct call; try discriminate; cbn [is_network]; rewrite Hn; reflexivity.
  - right. split; [exact H1|]. exists msg. split.
    + cbn [List.filter is_error]. destruct call; try discriminate; reflexivity.
    + reflexivity.
Qed.

(** X4.  When the client cannot be built, whatever valid command was given:
    the invocation reports "Error connecting to Consul agent: " followed by
    the error as it is, exits with 1, and calls no verb. *)
Theorem client_error_is_fatal (ag : Agent) (w : World) (c : cmd) (n : Z) (e : string) :
  selection c = ([], inl true) →
  ParseRelayFactor ag (relay c) = Ok n →
  ValidateLocalOnly ag (local c) (listKeys c) = None →
  APIClient w = Err e →
  Run ag w (Some c) =
  ([New_APIClient; UI_Error ("Error connecting to Consul agent: " +:+ e)],
   inr (at_client_error, 1)).
Proof.
  intros Hs Hp Hv Hc. cbn [Run]. rewrite run_parsed_unfold, Hs.
  unfold validated. rewrite Hp, Hv, Hc. reflexivity.
Qed.

Lemma client_error_is_fatal_witness :
  Run agent world_unreachable (Some cmd_install) =
  ([New_APIClient; UI_Error "Error connecting to Consul agent: connection refused"],
   inr (at_client_error, 1)).
Proof.
  exact (client_error_is_fatal agent world_unreachable cmd_install 2
           "connection refused" eq_refl eq_refl eq_refl eq_refl).
Defined.

(** With a key argument populated, passing the single-action check means
    that nothing else is. *)
Lemma selection_with_key (c : cmd) :
  selection c = ([], inl true) → mutating c = true → populated c = 1%nat.
Proof.
  intros Hs Hm. apply selection_passes_iff in Hs as [Hs|(_ & _ & Hs)];
    [exact Hs|congruence].
Qed.

Ltac write_branch c Hs Hk :=
  let Hpop := fresh "Hpop" in
  assert (Hpop : populated c = 1%nat)
    by (apply selection_with_key; [exact Hs|unfold mutating; rewrite Hk;
        rewrite ?orb_true_r; reflexivity]);
  destruct c as [ik uk rk lk lpk r l h]; unfold populated in Hpop;
  cbn [installKey useKey removeKey listKeys listPrimaryKeys relay local] in *;
  destruct lk, lpk, ik as [|a1 ik], uk as [|a2 uk], rk as [|a3 rk];
  try discriminate.

(** X5.  [-install=KEY] alone, once validated and with a client: the one verb
    called is [KeyringInstall], with the key and with write options that
    carry the relay factor; nothing is written with [c.UI.Output]; the exit
    code is 0 exactly when the verb returns no error, and an error of the
    verb is reported as "error: " followed by its text. *)
Theorem install_dispatch (ag : Agent) (w : World) (c : cmd) (n : Z)
    (client : Operator) :
  nonempty (installKey c) = true →
  selection c = ([], inl true) →
  ParseRelayFactor ag (relay c) = Ok n →
  ValidateLocalOnly ag (local c) (listKeys c) = None →
  APIClient w = Ok client →
  network (Run ag w (Some c)) =
    [New_APIClient; Call_KeyringInstall (installKey c) {| w_RelayFactor := n |}] ∧
  outputs (Run ag w (Some c)) = [] ∧
  match KeyringInstall client (installKey c) {| w_RelayFactor := n |} with
  | None => exit_code (Run ag w (Some c)) = 0 ∧ errors (Run ag w (Some c)) = []
  | Some e =>
      exit_code (Run ag w (Some c)) = 1 ∧
      errors (Run ag w (Some c)) = [UI_Error ("error: " +:+ e)]
  end.
Proof.
  intros Hk Hs Hp Hv Hc. rewrite (run_dispatches ag w c n client Hs Hp Hv Hc).
  write_branch c Hs Hk.
  unfold network, outputs, errors, exit_code, returned, events, dispatch.
  cbn [installKey useKey removeKey listKeys listPrimaryKeys relay local nonempty
       String.eqb negb fst snd].
  destruct (KeyringInstall client _ _); repeat split.
Qed.

Lemma install_dispatch_witness :
  network (Run agent (world_answering []) (Some cmd_install)) =
    [New_APIClient; Call_KeyringInstall "k1" {| w_RelayFactor := 2 |}] ∧
  exit_code (Run agent (world_answering []) (Some cmd_install)) = 0.
Proof.
  destruct (install_dispatch agent (world_answering []) cmd_install 2
              (client_answering []) eq_refl eq_refl eq_refl eq_refl eq_refl)
    as (Hn & _ & H0 & _).
  split; [exact Hn|exact H0].
Defined.

(** X6.  [-use=KEY] alone, once validated and with a client: the one verb
    called is [KeyringUse], with the key and the relay factor; nothing is
    written with [c.UI.Output]; the exit code is 0 exactly when the verb
    returns no error, and an error of the verb is reported as "error: "
    followed by its text. *)
Theorem use_dispatch (ag : Agent) (w : World) (c : cmd) (n : Z)
    (client : Operator) :
  nonempty (useKey c) = true →
  selection c = ([], inl true) →
  ParseRelayFactor ag (relay c) = Ok n →
  ValidateLocalOnly ag (local c) (listKeys c) = None →
  APIClient w = Ok client →
  network (Run ag w (Some c)) =
    [New_APIClient; Call_KeyringUse (useKey c) {| w_RelayFactor := n |}] ∧
  outputs (Run ag w (Some c)) = [] ∧
  match KeyringUse client (useKey c) {| w_RelayFactor := n |} with
  | None => exit_code (Run ag w (Some c)) = 0 ∧ errors (Run ag w (Some c)) = []
  | Some e =>
      exit_code (Run ag w (Some c)) = 1 ∧
      errors (Run ag w (Some c)) = [UI_Error ("error: " +:+ e)]
  end.
Proof.
  intros Hk Hs Hp Hv Hc. rewrite (run_dispatches ag w c n client Hs Hp Hv Hc).
  write_branch c Hs Hk.
  unfold network, outputs, errors, exit_code, returned, events, dispatch.
  cbn [installKey useKey removeKey listKeys listPrimaryKeys relay local nonempty
       String.eqb negb fst snd].
  destruct (KeyringUse client _ _); repeat split.
Qed.

Lemma use_dispatch_witness :
  exit_code (Run agent world_failing (Some cmd_use)) = 1 ∧
  errors (Run agent world_failing (Some cmd_use)) = [UI_Error "error: no leader"].
Proof.
  destruct (use_dispatch agent world_failing cmd_use 2 client_failing
              eq_refl eq_refl eq_refl eq_refl eq_refl) as (_ & _ & H).
  exact H.
Defined.

(** X7.  [-remove=KEY] alone, once validated and with a client: the one verb
    called is [KeyringRemove], with the key and the relay factor; nothing is
    written with [c.UI.Output]; the exit code is 0 exactly when the verb
    returns no error, and an error of the verb is reported as "error: "
    followed by its text. *)
Theorem remove_dispatch (ag : Agent) (w : World) (c : cmd) (n : Z)
    (client : Operator) :
  nonempty (removeKey c) = true →
  selection c = ([], inl true) →
  ParseRelayFactor ag (relay c) = Ok n →
  ValidateLocalOnly ag (local c) (listKeys c) = None →
  APIClient w = Ok client →
  network (Run ag w (Some c)) =
    [New_APIClient; Call_KeyringRemove (removeKey c) {| w_RelayFactor := n |}] ∧
  outputs (Run ag w (Some c)) = [] ∧
  match KeyringRemove client (removeKey c) {| w_RelayFactor := n |} with
  | None => exit_code (Run ag w (Some c)) = 0 ∧ errors (Run ag w (Some c)) = []
  | Some e =>
      exit_code (Run ag w (Some c)) = 1 ∧
      errors (Run ag w (Some c)) = [UI_Error ("error: " +:+ e)]
  end.
Proof.
  intros Hk Hs Hp Hv Hc. rewrite (run_dispatches ag w c n client Hs Hp Hv Hc).
  write_branch c Hs Hk.
  unfold network, outputs, errors, exit_code, returned, events, dispatch.
  cbn [installKey useKey removeKey listKeys listPrimaryKeys relay local nonempty
       String.eqb negb fst snd].
  destruct (KeyringRemove client _ _); repeat split.
Qed.

Lemma remove_dispatch_witness :
  network (Run agent (world_answering []) (Some cmd_remove)) =
    [New_APIClient; Call_KeyringRemove "k1" {| w_RelayFactor := 0 |}] ∧
  exit_code (Run agent (world_answering []) (Some cmd_remove)) = 0.
Proof.
  destruct (remove_dispatch agent (world_answering []) cmd_remove 0
              (client_answering []) eq_refl eq_refl eq_refl eq_refl eq_refl)
    as (Hn & _ & H0 & _).
  split; [exact Hn|exact H0].
Defined.

(** X8.  Blocks are written by the two read commands only: an invocation
    without [-list] and [-list-primary] writes nothing with [c.UI.Output],
    whatever else it is given and whatever the client answers. *)
Theorem only_reads_write_blocks (ag : Agent) (w : World) (c : cmd) :
  listKeys c = false → listPrimaryKeys c = false →
  outputs (Run ag w (Some c)) = [].
Proof.
  intros Hl Hlp. unfold outputs, events. cbn [Run]. rewrite run_parsed_unfold.
  destruct (selection_outcomes c) as [Hs|[[Hs _]|[Hs _]]]; rewrite Hs;
    [|reflexivity..].
  unfold validated.
  destruct (ParseRelayFactor ag (relay c)) as [n|e]; [|reflexivity].
  destruct (ValidateLocalOnly ag (local c) (listKeys c)) as [e|]; [reflexivity|].
  destruct (APIClient w) as [client|e]; [|reflexivity].
  unfold dispatch. rewrite Hl, Hlp. cbn [fst snd app].
  destruct (nonempty (installKey c));
    [destruct (KeyringInstall client _ _); reflexivity|].
  destruct (nonempty (useKey c));
    [destruct (KeyringUse client _ _); reflexivity|].
  destruct (nonempty (removeKey c));
    [destruct (KeyringRemove client _ _); reflexivity|reflexivity].
Qed.

Lemma only_reads_write_blocks_witness :
  outputs (Run agent (world_answering [pool_dc1]) (Some cmd_install)) = [].
Proof.
  exact (only_reads_write_blocks agent (world_answering [pool_dc1]) cmd_install
           eq_refl eq_refl).
Defined.

(** X18.  [-list], once validated and with a client, calls [KeyringList] once,
    with the relay factor and the local-only flag as query options, and when
    the call succeeds writes one block per response with the counts of all
    keys and exits with 0; this also holds when [-list-primary] is given
    besides, the list branch being tried first.  When the call fails, nothing
    is written and the error is reported as "error: " followed by its text. *)
Theorem list_dispatch (ag : Agent) (w : World) (c : cmd) (n : Z) (client : Operator) :
  listKeys c = true →
  selection c = ([], inl true) →
  ParseRelayFactor ag (relay c) = Ok n →
  ValidateLocalOnly ag (local c) (listKeys c) = None →
  APIClient w = Ok client →
  network (Run ag w (Some c)) =
    [New_APIClient; Call_KeyringList {| q_RelayFactor := n; q_LocalOnly := local c |}] ∧
  match KeyringList client {| q_RelayFactor := n; q_LocalOnly := local c |} with
  | Err e =>
      outputs (Run ag w (Some c)) = [] ∧
      errors (Run ag w (Some c)) = [UI_Error ("error: " +:+ e)] ∧
      returned (Run ag w (Some c)) = (at_list_error, 1)
  | Ok rs =>
      outputs (Run ag w (Some c)) =
        imap (λ i r, formatResponse (map_order w i) r (Keys r)) rs ∧
      errors (Run ag w (Some c)) = [] ∧
      returned (Run ag w (Some c)) = (at_list, 0)
  end.
Proof.
  intros Hl Hs Hp Hv Hc. rewrite (run_dispatches ag w c n client Hs Hp Hv Hc).
  unfold network, outputs, errors, returned, events, dispatch. rewrite Hl.
  cbn zeta. destruct (KeyringList client _) as [rs|e]; [|repeat split].
  destruct (output_events (λ i r, formatResponse (map_order w i) r (Keys r)) rs)
    as (Hout & Hnet & _).
  cbn [fst snd omap list_omap List.filter is_network is_error]. rewrite Hnet.
  split; [reflexivity|]. split; [exact Hout|]. split; [|reflexivity].
  assert (He : ∀ (f : nat → KeyringResponse → string) l,
             List.filter is_error (imap (λ i r, UI_Output (f i r)) l) = []).
  { intros f l. revert f. induction l as [|x l IH]; intros f; [reflexivity|].
    cbn. apply IH. }
  apply (He (λ i r, formatResponse (map_order w i) r (Keys r))).
Qed.

Lemma list_dispatch_witness :
  network (Run agent (world_answering [pool_two]) (Some cmd_list_both)) =
    [New_APIClient; Call_KeyringList {| q_RelayFactor := 0; q_LocalOnly := false |}] ∧
  outputs (Run agent (world_answering [pool_two]) (Some cmd_list_both)) =
    [formatResponse range_sorted pool_two (Keys pool_two)].
Proof.
  destruct (list_dispatch agent (world_answering [pool_two]) cmd_list_both 0
              (client_answering [pool_two]) eq_refl eq_refl eq_refl eq_refl eq_refl)
    as (Hn & Hout & _).
  split; [exact Hn|exact Hout].
Defined.

(** ** More on the formatter *)

Lemma length_app_s (x y : string) :
  String.length (x +:+ y) = (String.length x + String.length y)%nat.
Proof. induction x as [|c x IH]; [reflexivity|]. rewrite app_cons. cbn. rewrite IH. reflexivity. Qed.

Lemma app_inv_head_s (x y z : string) : x +:+ y = x +:+ z → y = z.
Proof.
  induction x as [|c x IH]; [intros H; exact H|].
  rewrite !app_cons. intros [= H]. apply IH, H.
Qed.

Lemma app_inv_tail_s (x y t : string) : x +:+ t = y +:+ t → x = y.
Proof.
  revert y. induction x as [|c x IH]; intros [|c' y] H.
  - reflexivity.
  - apply (f_equal String.length) in H. rewrite !length_app_s in H.
    cbn in H. lia.
  - apply (f_equal String.length) in H. rewrite !length_app_s in H.
    cbn in H. lia.
  - rewrite !app_cons in H. injection H as -> H. f_equal. apply IH, H.
Qed.

Lemma has_byte_app (b : ascii) (x y : string) :
  has_byte b (x +:+ y) = has_byte b x || has_byte b y.
Proof.
  induction x as [|c x IH]; [reflexivity|].
  rewrite app_cons. cbn [has_byte]. rewrite IH, orb_assoc. reflexivity.
Qed.

(** Where the last occurrence of a byte is, is read off the string. *)
Lemma split_at_last (b : ascii) (x y d d' : string) :
  has_byte b d = false → has_byte b d' = false →
  x +:+ String b d = y +:+ String b d' → x = y ∧ d = d'.
Proof.
  intros Hd Hd'. revert y. induction x as [|c x IH]; intros [|c' y] H.
  - injection H as H. split; [reflexivity|exact H].
  - rewrite app_empty_l, app_cons in H. injection H as <- H.
    rewrite H, has_byte_app in Hd. cbn in Hd. rewrite Ascii.eqb_refl in Hd.
    rewrite orb_true_r in Hd. discriminate.
  - rewrite app_empty_l, app_cons in H. injection H as -> H.
    rewrite <- H, has_byte_app in Hd'. cbn in Hd'. rewrite Ascii.eqb_refl in Hd'.
    rewrite orb_true_r in Hd'. discriminate.
  - rewrite !app_cons in H. injection H as -> H.
    destruct (IH y H) as [-> ->]. split; reflexivity.
Qed.

(** Decimal digits: no bracket among them, and the integer can be read
    back. *)
Lemma has_bracket_fmt_d (n : Z) : has_byte "[" (fmt_d n) = false.
Proof.
  assert (Hu : ∀ d, has_byte "[" (NilEmpty.string_of_uint d) = false).
  { induction d; cbn; auto. }
  assert (Hz : ∀ d, has_byte "[" (NilZero.string_of_uint d) = false).
  { intros d. destruct d; try reflexivity; apply (Hu (_ _)). }
  unfold fmt_d, NilZero.string_of_int.
  destruct (Z.to_int n); [apply Hz|]. cbn. apply Hz.
Qed.

Lemma fmt_d_inj (n n' : Z) : fmt_d n = fmt_d n' → n = n'.
Proof.
  assert (Hnz : ∀ z, Z.to_int z ≠ Decimal.Pos Decimal.Nil ∧
                     Z.to_int z ≠ Decimal.Neg Decimal.Nil).
  { intros z. destruct z as [|p|p]; cbn; split; try discriminate;
      intros [= H]; exact (DecimalPos.Unsigned.to_uint_nonnil _ H). }
  unfold fmt_d. intros H. apply (f_equal NilZero.int_of_string) in H.
  rewrite !NilZero.isi in H by apply Hnz.
  injection H as H. apply DecimalZ.to_int_inj, H.
Qed.

Lemma join_empty (ls : list string) :
  Forall (λ l, l ≠ "") ls → strings_Join ls nl = "" → ls = [].
Proof.
  intros H Hj. destruct ls as [|l ls]; [reflexivity|].
  inversion H as [|? ? Hl _]; subst. rewrite join_cons in Hj.
  destruct l; [congruence|discriminate].
Qed.

Lemma strip_LF_collapse (s : string) : strip_LF (collapse s) = strip_LF s.
Proof.
  cut (strip_LF (collapse s) = strip_LF s ∧
       ∀ c, strip_LF (collapse (String c s)) = strip_LF (String c s)).
  { intros [H _]. exact H. }
  induction s as [|c0 s [IH0 IH1]].
  - split; [reflexivity|]. intros c. destruct (is_LF c) eqn:Hc.
    + apply is_LF_true in Hc as ->. reflexivity.
    + rewrite collapse_other by exact Hc. reflexivity.
  - split; [apply IH1|]. intros c. destruct (is_LF c) eqn:Hc.
    + apply is_LF_true in Hc as ->. destruct (is_LF c0) eqn:Hc0.
      * apply is_LF_true in Hc0 as ->. rewrite collapse_LF_LF. exact IH0.
      * rewrite collapse_LF_other by exact Hc0. apply IH1.
    + rewrite collapse_other by exact Hc. cbn [strip_LF]. rewrite Hc, IH1.
      reflexivity.
Qed.

Lemma no_LF_no_blank_line (s : string) : has_LF s = false → has_blank_line s = false.
Proof.
  intros H. rewrite <- (app_empty_r s), has_blank_line_plain_app by exact H.
  reflexivity.
Qed.

(** X9.  [formatMessages] returns the empty string exactly for the empty (or
    nil) map: every entry brings a line that is not empty. *)
Theorem formatMessages_empty_iff (ρ : MapRange) (messages : gmap string string) :
  range_ok ρ → formatMessages ρ messages = "" ↔ messages = ∅.
Proof.
  intros Hρ. unfold formatMessages. rewrite <- (range_nil ρ messages Hρ). split.
  - intros H. apply join_empty in H.
    + apply fmap_nil_inv in H. exact H.
    + apply Forall_fmap, Forall_forall. intros [from msg] _. discriminate.
  - intros ->. reflexivity.
Qed.

Lemma formatMessages_empty_iff_witness :
  formatMessages range_reversed (∅ : gmap string string) = "".
Proof.
  apply (formatMessages_empty_iff range_reversed ∅ range_reversed_ok). reflexivity.
Defined.

(** X10.  [formatKeys] returns the empty string exactly for the empty (or nil)
    map, whatever the total. *)
Theorem formatKeys_empty_iff (ρ : MapRange) (keys : gmap string Z) (total : Z) :
  range_ok ρ → formatKeys ρ keys total = "" ↔ keys = ∅.
Proof.
  intros Hρ. unfold formatKeys. rewrite <- (range_nil ρ keys Hρ). split.
  - intros H. apply join_empty in H.
    + apply fmap_nil_inv in H. exact H.
    + apply Forall_fmap, Forall_forall. intros [key n] _. discriminate.
  - intros ->. reflexivity.
Qed.

Lemma formatKeys_empty_iff_witness :
  formatKeys range_sorted (∅ : gmap string Z) 3 = "".
Proof.
  apply (formatKeys_empty_iff range_sorted ∅ 3 range_sorted_ok). reflexivity.
Defined.

(** X11.  Every key of the map given to [formatResponse] is reported: when the
    key holds no line feed, its line, with its count and the number of nodes
    of the response, stands in the block as it is, whatever the other fields
    of the response are. *)
Theorem every_key_reported (ρ : MapRange) (r : KeyringResponse)
    (keys : gmap string Z) (key : string) (n : Z) :
  range_ok ρ → keys !! key = Some n → has_LF key = false →
  contains (formatResponse ρ r keys)
    ("  " +:+ key +:+ " [" +:+ fmt_d n +:+ "/" +:+ fmt_d (NumNodes r) +:+ "]").
Proof.
  intros Hρ Hin Hk. change (contains (formatResponse ρ r keys) (keyLine (NumNodes r) (key, n))).
  destruct (solid_keyLine (NumNodes r) key n Hk) as [Hne Hl].
  apply (range_lookup ρ) in Hin; [|exact Hρ].
  apply (list_elem_of_fmap_2 (keyLine (NumNodes r))) in Hin.
  destruct (join_contains _ _ Hin) as (x & y & Hj).
  unfold formatResponse. rewrite assembled_eq, Hj.
  set (M := strings_Join (messageLine <$> _) nl).
  assert (nl +:+ header r +:+ nl +:+ M +:+ nl +:+
            (x +:+ keyLine (NumNodes r) (key, n) +:+ y)
          = (nl +:+ header r +:+ nl +:+ M +:+ nl +:+ x) +:+
            keyLine (NumNodes r) (key, n) +:+ y) as ->.
  { rewrite !app_assoc_s. reflexivity. }
  apply collapse_contains; [reflexivity|exact Hne|].
  apply no_LF_no_blank_line, Hl.
Qed.

Lemma every_key_reported_witness :
  contains (formatResponse range_reversed pool_two (Keys pool_two))
    "  def456 [1/2]".
Proof.
  exact (every_key_reported range_reversed pool_two (Keys pool_two) "def456" 1
           range_reversed_ok eq_refl eq_refl).
Defined.

(** X12.  The header line of the pool stands in the block as it is, whatever
    the messages and keys are, when the site and the segment hold no line
    feed. *)
Theorem header_reported (ρ : MapRange) (r : KeyringResponse) (keys : gmap string Z) :
  has_LF (Datacenter r) = false → has_LF (Segment r) = false →
  contains (formatResponse ρ r keys)
    (poolName (Datacenter r) (WAN r) (Segment r) +:+ ":").
Proof.
  intros Hd Hs. rewrite poolName_header.
  destruct (solid_header r Hd Hs) as [Hne Hl].
  unfold formatResponse. rewrite assembled_eq.
  apply collapse_contains.
  - destruct (header r); [congruence|]. cbn in Hl.
    apply orb_false_iff in Hl as [Hl _]. exact Hl.
  - exact Hne.
  - apply no_LF_no_blank_line, Hl.
Qed.

Lemma header_reported_witness :
  contains (formatResponse range_sorted pool_two (Keys pool_two)) "dc1 (LAN) [alpha]:".
Proof.
  exact (header_reported range_sorted pool_two (Keys pool_two) eq_refl eq_refl).
Defined.

(** X13.  Every block begins with a line feed, whatever the response: blocks
    written one after the other are set apart by an empty line. *)
Theorem block_starts_on_new_line (ρ : MapRange) (r : KeyringResponse)
    (keys : gmap string Z) :
  starts_LF (formatResponse ρ r keys) = true.
Proof.
  unfold formatResponse. rewrite assembled_eq.
  set (rest := header r +:+ _).
  change (nl +:+ rest) with (String LF rest).
  destruct rest as [|c rest]; [reflexivity|].
  destruct (is_LF c) eqn:Hc.
  - apply is_LF_true in Hc as ->. rewrite collapse_LF_LF. reflexivity.
  - rewrite collapse_LF_other by exact Hc. reflexivity.
Qed.

(** X14.  The final replacement of [formatResponse] drops line feeds and
    nothing else: without their line feeds, the block and the text joined
    before the replacement are the same string. *)
Theorem only_line_feeds_dropped (ρ : MapRange) (r : KeyringResponse)
    (keys : gmap string Z) :
  strip_LF (formatResponse ρ r keys) =
  strip_LF
    (strings_Join
       [ ""; poolName (Datacenter r) (WAN r) (Segment r) +:+ ":";
         formatMessages ρ (Messages r); formatKeys ρ keys (NumNodes r) ] nl).
Proof. unfold formatResponse. apply strip_LF_collapse. Qed.

(** X15.  Within one pool kind and one site, the name tells the segment:
    two segments with the same name from [poolName] are the same segment (no
    segment being the empty string). *)
Theorem poolName_segment_inj (dc : string) (wan : bool) (segment segment' : string) :
  poolName dc wan segment = poolName dc wan segment' → segment = segment'.
Proof.
  unfold poolName. intros H. apply app_inv_head_s in H.
  destruct (String.eqb_spec segment "") as [Hs|Hs];
    destruct (String.eqb_spec segment' "") as [Hs'|Hs'].
  - congruence.
  - subst segment. discriminate.
  - subst segment'. discriminate.
  - apply (app_inv_head_s " [") in H. apply app_inv_tail_s in H. exact H.
Qed.

Lemma poolName_segment_inj_witness : "alpha" = "alpha".
Proof. exact (poolName_segment_inj "dc1" false "alpha" "alpha" eq_refl). Defined.

(** X16.  Within one segment, the names of two local pools tell their sites
    apart, while the name of the wide-area pool does not depend on the
    site. *)
Theorem poolName_site (dc dc' segment : string) :
  (poolName dc false segment = poolName dc' false segment → dc = dc') ∧
  poolName dc true segment = poolName dc' true segment.
Proof.
  split; [|reflexivity]. unfold poolName. intros H.
  rewrite <- !app_assoc_s in H. apply app_inv_tail_s in H.
  apply app_inv_tail_s in H. exact H.
Qed.

Lemma poolName_site_witness : "dc1" = "dc1".
Proof. exact (proj1 (poolName_site "dc1" "dc1" "alpha") eq_refl). Defined.

(** X17.  A key line tells its key and its count: for one total, two entries
    with the same line are the same entry. *)
Theorem keyLine_inj (total : Z) (key key' : string) (n n' : Z) :
  keyLine total (key, n) = keyLine total (key', n') → key = key' ∧ n = n'.
Proof.
  unfold keyLine. cbn [fst snd]. intros H. apply app_inv_head_s in H.
  assert (Hsplit : ∀ k m, k +:+ " [" +:+ fmt_d m +:+ "/" +:+ fmt_d total +:+ "]"
                  = (k +:+ " ") +:+ String "[" (fmt_d m +:+ "/" +:+ fmt_d total +:+ "]")).
  { intros k m. rewrite app_assoc_s. reflexivity. }
  rewrite !Hsplit in H. apply split_at_last in H as [Hk Hn].
  - apply app_inv_tail_s in Hk. apply app_inv_tail_s in Hn.
    split; [exact Hk|apply fmt_d_inj, Hn].
  - rewrite !has_byte_app, !has_bracket_fmt_d. reflexivity.
  - rewrite !has_byte_app, !has_bracket_fmt_d. reflexivity.
Qed.

Lemma keyLine_inj_witness : "abc123" = "abc123" ∧ 3 = 3.
Proof. exact (keyLine_inj 5 "abc123" "abc123" 3 3 eq_refl). Defined.
